(** * timekeeper: a shallow embedding of [time_counter.hpp] and [timekeeper.hpp]

    The development follows the two headers of the library:

    - [StdMap]: the ordered container [std::map<std::string, V>] used for
      the span table and for the log fields;
    - [Recorder]: class [TimeRecorder] (one named timing observation);
    - [Counter]: class [TimeCounter] (the span aggregator);
    - [Data]: class [ThreadData] (identifier, log fields, one aggregator);
    - [HMap]: class template [HierarchicalMap] and its key guards;
    - [Manager]: class [ThreadDataManager].

    Every member function that reads the wall clock takes the instant it
    reads as an argument; every member function that writes to [std::cout]
    or [std::cerr] returns the lines it writes.  Mutexes are not modelled:
    each member function holds its lock for its whole body, so a run of the
    program is a sequence of whole calls. *)

From Stdlib Require Import ZArith String Ascii List Sorted Permutation Lia.
From stdpp Require Import gmap strings list pretty relations.

Local Open Scope Z_scope.

(** ** [std::map<std::string, V>] *)

(** An ordered map is kept as the list of its entries in iteration order.
    [std::less<std::string>] compares byte-wise, as [String.compare] does. *)
Module StdMap.

Definition t (V : Type) : Type := list (string * V).

Definition key_lt (a b : string) : Prop := String.compare a b = Lt.

Section ordered_map.
Context {V : Type}.

Definition empty : t V := [].

Fixpoint find (k : string) (m : t V) : option V :=
  match m with
  | [] => None
  | (k', v) :: m' => if String.eqb k k' then Some v else find k m'
  end.

(** [m.count(k)] *)
Definition count (k : string) (m : t V) : bool :=
  match find k m with Some _ => true | None => false end.

(** [m[k] = v]: the entry is created at its place in the order, or its value
    is replaced. *)
Fixpoint assign (k : string) (v : V) (m : t V) : t V :=
  match m with
  | [] => [(k, v)]
  | (k', v') :: m' =>
      match String.compare k k' with
      | Eq => (k', v) :: m'
      | Lt => (k, v) :: (k', v') :: m'
      | Gt => (k', v') :: assign k v m'
      end
  end.

(** The value read through [m[k]]; an absent key reads as the
    value-initialised [dflt], which [operator[]] inserts. *)
Definition subscript (dflt : V) (k : string) (m : t V) : V :=
  match find k m with Some v => v | None => dflt end.

(** [m[k].field = f(m[k])] *)
Definition update (dflt : V) (f : V -> V) (k : string) (m : t V) : t V :=
  assign k (f (subscript dflt k m)) m.

Definition keys (m : t V) : list string := map fst m.

(** The class invariant of [std::map]: keys strictly ascending. *)
Definition ascending (m : t V) : Prop := Sorted key_lt (keys m).

End ordered_map.
End StdMap.

(** ** [TimeRecorder] *)

(** One invocation of the callback [_cb(name, start_us, end_us)]. *)
Record Emission := mkEmission {
  em_name : string;
  em_start : Z;
  em_end : Z
}.

Record TimeRecorder := mkTimeRecorder {
  _name : string;
  _create_at : Z;
  _start_at : Z;
  _end_at : Z;
  _is_start : bool;
  _is_end : bool;
  _uploaded : bool
}.

Module Recorder.

(** The constructor leaves [_start_at] and [_end_at] uninitialised; their
    indeterminate contents are the pair [junk]. *)
Definition create (name : string) (now : Z) (junk : Z * Z) : TimeRecorder :=
  {| _name := name; _create_at := now;
     _start_at := fst junk; _end_at := snd junk;
     _is_start := false; _is_end := false; _uploaded := false |}.

Definition upload (now : Z) (tr : TimeRecorder) : TimeRecorder * list Emission :=
  if _uploaded tr then (tr, [])
  else
    let start := if _is_start tr then _start_at tr else _create_at tr in
    let end_ := if _is_end tr then _end_at tr else now in
    ({| _name := _name tr; _create_at := _create_at tr;
        _start_at := _start_at tr; _end_at := _end_at tr;
        _is_start := _is_start tr; _is_end := _is_end tr;
        _uploaded := true |},
     [mkEmission (_name tr) start end_]).

Definition start (now : Z) (tr : TimeRecorder) : TimeRecorder :=
  if _is_end tr || _is_start tr then tr
  else {| _name := _name tr; _create_at := _create_at tr;
          _start_at := now; _end_at := _end_at tr;
          _is_start := true; _is_end := _is_end tr;
          _uploaded := _uploaded tr |}.

Definition end_ (now : Z) (tr : TimeRecorder) : TimeRecorder * list Emission :=
  if _is_end tr then (tr, [])
  else
    upload now {| _name := _name tr; _create_at := _create_at tr;
                  _start_at := _start_at tr; _end_at := now;
                  _is_start := _is_start tr; _is_end := true;
                  _uploaded := _uploaded tr |}.

Definition get_time_from_start (now : Z) (tr : TimeRecorder) : Z :=
  now - (if _is_start tr then _start_at tr else _create_at tr).

(** [~TimeRecorder()]: the object is gone afterwards. *)
Definition destroy (now : Z) (tr : TimeRecorder) : list Emission :=
  snd (upload now tr).

(** The calls one recorder can receive during its lifetime.  A forced
    finalisation is the [real_tr->end()] of [TimeCounter::report]. *)
Inductive Op :=
| OpStart (now : Z)
| OpEnd (now : Z)
| OpForcedEnd (now : Z)
| OpDestroy (now : Z).

(** [None] is a destroyed recorder: no owner is left to call it and the
    aggregator's [weak_ptr] no longer locks. *)
Definition step (op : Op) (o : option TimeRecorder)
  : option TimeRecorder * list Emission :=
  match o with
  | None => (None, [])
  | Some tr =>
      match op with
      | OpStart now => (Some (start now tr), [])
      | OpEnd now | OpForcedEnd now =>
          let '(tr', es) := end_ now tr in (Some tr', es)
      | OpDestroy now => (None, destroy now tr)
      end
  end.

Fixpoint run (ops : list Op) (o : option TimeRecorder)
  : option TimeRecorder * list Emission :=
  match ops with
  | [] => (o, [])
  | op :: ops' =>
      let '(o1, es1) := step op o in
      let '(o2, es2) := run ops' o1 in
      (o2, es1 ++ es2)
  end.

(** Following the specification's words: the effective start is the instant
    of the first [start()] made before the recorder was ended (or, never
    ended, destroyed), and the creation instant when there is none. *)
Definition effective_start (created : Z) (ops : list Op) : Z :=
  match ops with
  | [] => created
  | OpStart now :: _ => now
  | OpEnd _ :: _ | OpForcedEnd _ :: _ | OpDestroy _ :: _ => created
  end.

(** The start a recorder in state [tr] will emit when [ops] follow. *)
Definition first_start (tr : TimeRecorder) (ops : list Op) : Z :=
  if _is_start tr then _start_at tr else effective_start (_create_at tr) ops.

(** The instant at which the recorder stops: that of the first [end()],
    forced or not, and otherwise of the destructor. *)
Fixpoint first_stop (ops : list Op) : option Z :=
  match ops with
  | [] => None
  | OpStart _ :: ops' => first_stop ops'
  | OpEnd now :: _ | OpForcedEnd now :: _ | OpDestroy now :: _ => Some now
  end.

(** Two recorders that no member function can tell apart: they agree on
    everything but the contents of [_start_at] and [_end_at] while the
    matching flag is down. *)
Definition same_observable (a b : TimeRecorder) : Prop :=
  _name a = _name b /\ _create_at a = _create_at b /\
  _is_start a = _is_start b /\ _is_end a = _is_end b /\
  _uploaded a = _uploaded b /\
  (_is_start a = true -> _start_at a = _start_at b) /\
  (_is_end a = true -> _end_at a = _end_at b).

End Recorder.

(** ** [TimeCounter] *)

(** [_trs] is a vector of [weak_ptr<TimeRecorder>].  Each entry is kept
    together with the object it observes: [Some tr] while the recorder is
    alive, [None] once the [weak_ptr] has expired.  The [shared_ptr] handed
    to the caller is the index of the entry. *)
Record TimeCounter := mkTimeCounter {
  _spans : StdMap.t (Z * Z);
  _trs : list (option TimeRecorder)
}.

(** Two's-complement result of a 64-bit signed operation. *)
Definition wrap64 (z : Z) : Z := (z + 2 ^ 63) mod 2 ^ 64 - 2 ^ 63.

(** [s.c_str()] as read by [%s]: the bytes before the first NUL. *)
Fixpoint c_str (s : string) : string :=
  match s with
  | EmptyString => EmptyString
  | String c s' => if Ascii.eqb c Ascii.zero then EmptyString else String c (c_str s')
  end.

Definition pad3 (n : N) : string :=
  ((if (n <? 10)%N then "00" else if (n <? 100)%N then "0" else "") +:+ pretty n)%string.

(** [%.3f] applied to [us / 1000.0].  For [|us| < 2^52] the conversion of
    [us] to [double] is exact and the rounded quotient lies within 0.0005 of
    [us/1000], so the three printed decimals are those of [us/1000] itself;
    the rendering below is that exact decimal. *)
Definition format_ms (us : Z) : string :=
  ((if (us <? 0)%Z then "-" else "")
   +:+ pretty (Z.to_N (Z.abs us / 1000)%Z) +:+ "."
   +:+ pad3 (Z.to_N (Z.abs us mod 1000)%Z))%string.

(** [snprintf(buffer, sizeof(buffer), "[%s: %.3f(ms)]", ...)] with
    [char buffer[100]]: at most 99 bytes are kept. *)
Definition snprintf_span (item : string * (Z * Z)) : string :=
  let '(name, (first, second)) := item in
  String.substring 0 99
    ("[" +:+ c_str name +:+ ": " +:+ format_ms (wrap64 (second - first)%Z) +:+ "(ms)]")%string.

Module Counter.

Definition create : TimeCounter := {| _spans := StdMap.empty; _trs := [] |}.

(** The lambda given to every recorder made by [add_recorder]. *)
Definition callback (e : Emission) (spans : StdMap.t (Z * Z)) : StdMap.t (Z * Z) :=
  let name := em_name e in
  let spans1 :=
    if StdMap.count name spans then spans
    else StdMap.assign name (em_start e, em_end e) spans in
  let spans2 :=
    StdMap.update (0, 0) (fun p => (Z.min (fst p) (em_start e), snd p)) name spans1 in
  StdMap.update (0, 0) (fun p => (fst p, Z.max (snd p) (em_end e))) name spans2.

Definition deliver (es : list Emission) (spans : StdMap.t (Z * Z)) : StdMap.t (Z * Z) :=
  fold_left (fun sp e => callback e sp) es spans.

(** Returns the caller's handle (the index of the new entry). *)
Definition add_recorder (name : string) (now : Z) (junk : Z * Z) (tc : TimeCounter)
  : nat * TimeCounter :=
  (length (_trs tc),
   {| _spans := _spans tc;
      _trs := _trs tc ++ [Some (Recorder.create name now junk)] |}).

(** A call made by the owner of handle [h] on its recorder. *)
Definition on_recorder (h : nat) (op : Recorder.Op) (tc : TimeCounter) : TimeCounter :=
  let '(o, es) := Recorder.step op (mjoin (_trs tc !! h)) in
  {| _spans := deliver es (_spans tc); _trs := <[h := o]> (_trs tc) |}.

(** First loop of [report]: every recorder that still locks is ended.  The
    recorder at index [i] reads the clock as [clock i]. *)
Fixpoint end_all (clock : nat -> Z) (i : nat) (trs : list (option TimeRecorder))
  : list (option TimeRecorder) * list Emission :=
  match trs with
  | [] => ([], [])
  | tr :: trs' =>
      let '(tr1, es1) := Recorder.step (Recorder.OpForcedEnd (clock i)) tr in
      let '(trs2, es2) := end_all clock (S i) trs' in
      (tr1 :: trs2, es1 ++ es2)
  end.

(** The second half of [report]: [view] and its concatenation. *)
Definition join (view : list string) : string :=
  match view with
  | [] => ""%string
  | v0 :: rest => fold_left (fun result v => (result +:+ (" " +:+ v))%string) rest v0
  end.

Definition render (spans : StdMap.t (Z * Z)) : string :=
  join (map snprintf_span spans).

Definition report (clock : nat -> Z) (tc : TimeCounter) : string * TimeCounter :=
  let '(trs', es) := end_all clock 0 (_trs tc) in
  let spans' := deliver es (_spans tc) in
  (render spans', {| _spans := spans'; _trs := trs' |}).

(** The calls an aggregator and the recorders it made can receive. *)
Inductive Call :=
| CallAddRecorder (name : string) (now : Z) (junk : Z * Z)
| CallOnRecorder (h : nat) (op : Recorder.Op)
| CallReport (clock : nat -> Z).

Definition call (c : Call) (tc : TimeCounter) : TimeCounter :=
  match c with
  | CallAddRecorder name now junk => snd (add_recorder name now junk tc)
  | CallOnRecorder h op => on_recorder h op tc
  | CallReport clock => snd (report clock tc)
  end.

Definition calls (cs : list Call) (tc : TimeCounter) : TimeCounter :=
  fold_left (fun tc c => call c tc) cs tc.

(** An entry of [_trs] whose recorder, if it is still alive and was ended,
    has also emitted: what the member functions of [TimeRecorder] keep. *)
Definition entry_sound (o : option TimeRecorder) : Prop :=
  match o with
  | Some tr => _is_end tr = true -> _uploaded tr = true
  | None => True
  end.

(** An entry that has nothing left to emit: expired, or ended and emitted. *)
Definition entry_done (o : option TimeRecorder) : Prop :=
  match o with
  | Some tr => _is_end tr = true /\ _uploaded tr = true
  | None => True
  end.

(** The text [snprintf] is asked to write for one span. *)
Definition entry_text (item : string * (Z * Z)) : string :=
  let '(name, (first, second)) := item in
  ("[" +:+ name +:+ ": " +:+ format_ms (second - first)%Z +:+ "(ms)]")%string.

(** A span whose entry [snprintf] writes whole: no NUL in the name, an
    elapsed time that [format_ms] renders exactly, at most 99 bytes. *)
Definition entry_fits (item : string * (Z * Z)) : Prop :=
  c_str (fst item) = fst item /\
  (Z.abs (snd (snd item) - fst (snd item)) < 2 ^ 52)%Z /\
  (String.length (entry_text item) <= 99)%nat.

(** Calls made on recorders through their handles, in order. *)
Definition on_recorders (hops : list (nat * Recorder.Op)) (tc : TimeCounter)
  : TimeCounter :=
  fold_left (fun tc hop => on_recorder (fst hop) (snd hop) tc) hops tc.

End Counter.

(** ** [ThreadData] *)

Record ThreadData := mkThreadData {
  _logid : string;
  _tc : TimeCounter;
  _log_fields : StdMap.t string
}.

Module Data.

Definition create : ThreadData :=
  {| _logid := ""; _tc := Counter.create; _log_fields := StdMap.empty |}.

Definition create_with (logid : string) : ThreadData :=
  {| _logid := logid; _tc := _tc create; _log_fields := _log_fields create |}.

Definition render_field (item : string * string) : string :=
  (" [" +:+ fst item +:+ ": " +:+ snd item +:+ "]")%string.

Definition concat_strings (l : list string) : string :=
  fold_right String.append ""%string l.

Definition report (clock : nat -> Z) (d : ThreadData) : string * ThreadData :=
  let '(spans, tc') := Counter.report clock (_tc d) in
  (("[logid: " +:+ _logid d +:+ "]"
    +:+ concat_strings (map render_field (_log_fields d))
    +:+ " " +:+ spans)%string,
   {| _logid := _logid d; _tc := tc'; _log_fields := _log_fields d |}).

Definition set_log_id (logid : string) (d : ThreadData) : ThreadData :=
  {| _logid := logid; _tc := _tc d; _log_fields := _log_fields d |}.

Definition get_log_id (d : ThreadData) : string := _logid d.

Definition add_recorder (name : string) (now : Z) (junk : Z * Z) (d : ThreadData)
  : nat * ThreadData :=
  let '(h, tc') := Counter.add_recorder name now junk (_tc d) in
  (h, {| _logid := _logid d; _tc := tc'; _log_fields := _log_fields d |}).

Definition add_log_field (key value : string) (need_overwrite : bool) (d : ThreadData)
  : ThreadData :=
  if StdMap.count key (_log_fields d) && negb need_overwrite then d
  else {| _logid := _logid d; _tc := _tc d;
          _log_fields := StdMap.assign key value (_log_fields d) |}.

(** A call made on the aggregator owned by the object, or on one of its
    recorders. *)
Definition on_counter (c : Counter.Call) (d : ThreadData) : ThreadData :=
  {| _logid := _logid d; _tc := Counter.call c (_tc d); _log_fields := _log_fields d |}.

(** The calls a [ThreadData] can receive. *)
Inductive Call :=
| CallSetLogId (logid : string)
| CallAddLogField (key value : string) (need_overwrite : bool)
| CallCounter (c : Counter.Call)
| CallReport (clock : nat -> Z).

Definition call (c : Call) (d : ThreadData) : ThreadData :=
  match c with
  | CallSetLogId logid => set_log_id logid d
  | CallAddLogField key value need_overwrite => add_log_field key value need_overwrite d
  | CallCounter c => on_counter c d
  | CallReport clock => snd (report clock d)
  end.

Definition calls (cs : list Call) (d : ThreadData) : ThreadData :=
  fold_left (fun d c => call c d) cs d.

(** The call is an [add_log_field] on [k] that asks to overwrite. *)
Definition overwrites (k : string) (c : Call) : bool :=
  match c with
  | CallAddLogField key _ true => String.eqb key k
  | _ => false
  end.

End Data.

(** ** [HierarchicalMap] *)

(** [DataPtr = std::shared_ptr<DataType>] as stored in the map: [None] is
    the null pointer and [Some l] the address of a payload object.  Two
    pointers share one payload exactly when they are equal; the payloads
    themselves live in a heap indexed by address. *)
Definition DataPtr : Type := option nat.

Record HierarchicalMap := mkHierarchicalMap {
  map_ : gmap string DataPtr;
  children_ : gmap string (gset string)
}.

(** A [KeyGuard] made by [GetKeyGuard]: the raw pointer it wraps, what its
    deleter captured, and the use count of its control block. *)
Record KeyGuard := mkKeyGuard {
  guard_get : DataPtr;
  guard_key : string;
  guard_data : DataPtr;
  use_count : nat
}.

(** What [erase] really took out of the two tables, in program order. *)
Inductive Erasure :=
| ErasedChildren (k : string)
| ErasedEntry (k : string).

(** The local variables of [RemoveKeyRecursive] and the tables it edits. *)
Record RemoveState := mkRemoveState {
  keys_to_remove : list string;
  removed_keys : list string;
  rs_store : HierarchicalMap;
  erasures : list Erasure
}.

Module HMap.

Definition empty : HierarchicalMap := {| map_ := ∅; children_ := ∅ |}.

(** [children_.emplace(key, {})]: nothing happens when the key is there. *)
Definition emplace_children (key : string) (c : gmap string (gset string))
  : gmap string (gset string) :=
  match c !! key with
  | Some _ => c
  | None => <[key := ∅]> c
  end.

(** Returns the new tables and the lines written to [std::cerr]. *)
Definition AddData (key : string) (data : DataPtr) (baseKey : string)
  (hm : HierarchicalMap) : HierarchicalMap * list string :=
  let '(children1, data1, err) :=
    if negb (String.eqb baseKey "") then
      match map_ hm !! baseKey with
      | None =>
          (children_ hm, data,
           [("there is no basekey in map, basekey: " +:+ baseKey
             +:+ " key: " +:+ key)%string])
      | Some base_data =>
          (<[baseKey := default ∅ (children_ hm !! baseKey) ∪ {[key]}]> (children_ hm),
           base_data, [])
      end
    else (children_ hm, data, []) in
  ({| map_ := <[key := data1]> (map_ hm);
      children_ := emplace_children key children1 |}, err).

Definition FindData (key : string) (hm : HierarchicalMap) : DataPtr :=
  match map_ hm !! key with
  | Some data => data
  | None => None
  end.

(** [None] is the null guard returned for an unknown key. *)
Definition GetKeyGuard (key : string) (hm : HierarchicalMap) : option KeyGuard :=
  match map_ hm !! key with
  | None => None
  | Some data =>
      Some {| guard_get := data; guard_key := key; guard_data := data; use_count := 1 |}
  end.

(** What [children_.erase(childIt)] and [map_.erase(current)] take out. *)
Definition erased_children_of (c : gmap string (gset string)) (current : string)
  : list Erasure :=
  match c !! current with
  | Some _ => [ErasedChildren current]
  | None => []
  end.

Definition erased_entry_of (m : gmap string DataPtr) (current : string)
  : list Erasure :=
  match m !! current with
  | Some _ => [ErasedEntry current]
  | None => []
  end.

(** One turn of the [while] loop, [current] being the popped front.  The
    members of an [unordered_set] are visited in an unspecified order;
    [elements] fixes one. *)
Definition remove_step (current : string) (rest : list string) (st : RemoveState)
  : RemoveState :=
  let hm := rs_store st in
  let '(queue, removed, children) :=
    match children_ hm !! current with
    | Some cs =>
        (rest ++ elements cs, removed_keys st ++ elements cs,
         delete current (children_ hm))
    | None => (rest, removed_keys st, children_ hm)
    end in
  {| keys_to_remove := queue;
     removed_keys := removed;
     rs_store := {| map_ := delete current (map_ hm); children_ := children |};
     erasures := erasures st ++ erased_children_of (children_ hm) current
                 ++ erased_entry_of (map_ hm) current |}.

Fixpoint remove_loop (fuel : nat) (st : RemoveState) : RemoveState :=
  match keys_to_remove st with
  | [] => st
  | current :: rest =>
      match fuel with
      | O => st
      | S fuel' => remove_loop fuel' (remove_step current rest st)
      end
  end.

(** Every turn pops one key and pushes the members of at most one child
    set, which it then erases: the loop makes at most this many turns. *)
Definition pending (queue : list string) (c : gmap string (gset string)) : nat :=
  length queue + map_fold (fun _ cs n => size cs + n)%nat 0%nat c.

Definition remove_init (key : string) (hm : HierarchicalMap) : RemoveState :=
  {| keys_to_remove := [key]; removed_keys := [key]; rs_store := hm; erasures := [] |}.

Definition remove_final (key : string) (hm : HierarchicalMap) : RemoveState :=
  remove_loop (pending [key] (children_ hm)) (remove_init key hm).

Definition remove_notice (removed : list string) : string :=
  match removed with
  | [] => ""%string
  | k0 :: more =>
      fold_left (fun ss k => (ss +:+ " " +:+ k)%string) more
        ("[begin recursive remove key] parent key is " +:+ k0)%string
  end.

(** Returns the new tables and the line written to [std::cout]. *)
Definition RemoveKeyRecursive (key : string) (hm : HierarchicalMap)
  : HierarchicalMap * list string :=
  let st := remove_final key hm in
  (rs_store st, [remove_notice (removed_keys st)]).

(** A copy of the guard is made: the same control block, one more owner. *)
Definition copy_guard (g : KeyGuard) : KeyGuard :=
  {| guard_get := guard_get g; guard_key := guard_key g;
     guard_data := guard_data g; use_count := S (use_count g) |}.

(** One owner of the guard lets go.  The deleter runs when it was the last
    one; [None] is the control block gone. *)
Definition drop_guard (g : KeyGuard) (hm : HierarchicalMap)
  : option KeyGuard * HierarchicalMap * list string :=
  match use_count g with
  | S (S n) =>
      (Some {| guard_get := guard_get g; guard_key := guard_key g;
               guard_data := guard_data g; use_count := S n |}, hm, [])
  | _ =>
      let '(hm', out) := RemoveKeyRecursive (guard_key g) hm in
      (None, hm', out)
  end.

(** The calls that change the tables: a registration, and the release of
    the last owner of a guard made for [key]. *)
Inductive Call :=
| CallAddData (key : string) (data : DataPtr) (baseKey : string)
| CallRelease (key : string).

Definition call (c : Call) (hm : HierarchicalMap) : HierarchicalMap :=
  match c with
  | CallAddData key data baseKey => fst (AddData key data baseKey hm)
  | CallRelease key => fst (RemoveKeyRecursive key hm)
  end.

Definition calls (cs : list Call) (hm : HierarchicalMap) : HierarchicalMap :=
  fold_left (fun hm c => call c hm) cs hm.

(** Keys reachable over the recorded child sets. *)
Definition child_of (c : gmap string (gset string)) (a b : string) : Prop :=
  exists cs, c !! a = Some cs /\ b ∈ cs.

Definition reachable (c : gmap string (gset string)) (a b : string) : Prop :=
  rtc (child_of c) a b.

Definition reachable_from (c : gmap string (gset string)) (queue : list string)
  (x : string) : Prop :=
  exists y, y ∈ queue /\ reachable c y x.

(** Going from [hm] to [hm'] takes out the keys in [R], each table entry
    once according to the trace [tr], and nothing else. *)
Definition removes_exactly (R : string -> Prop) (hm hm' : HierarchicalMap)
  (tr : list Erasure) : Prop :=
  (forall x, R x -> map_ hm' !! x = None /\ children_ hm' !! x = None) /\
  (forall x, ~ R x ->
     map_ hm' !! x = map_ hm !! x /\ children_ hm' !! x = children_ hm !! x) /\
  (forall x, map_ hm' !! x = None \/ map_ hm' !! x = map_ hm !! x) /\
  (forall x, children_ hm' !! x = None \/ children_ hm' !! x = children_ hm !! x) /\
  NoDup tr /\
  (forall x, ErasedEntry x ∈ tr <-> R x /\ is_Some (map_ hm !! x)) /\
  (forall x, ErasedChildren x ∈ tr <-> R x /\ is_Some (children_ hm !! x)).

(** Every key with a payload has a child set and conversely: what
    [AddData] and [RemoveKeyRecursive] maintain. *)
Definition consistent (hm : HierarchicalMap) : Prop :=
  forall k, is_Some (map_ hm !! k) <-> is_Some (children_ hm !! k).

(** Payloads by address, and access to a payload through a key. *)
Section payloads.
Context {DataType : Type}.

Definition read_via (key : string) (hm : HierarchicalMap) (heap : list DataType)
  : option DataType :=
  match FindData key hm with
  | Some l => heap !! l
  | None => None
  end.

(** [FindData(key)->mutate()]: [None] when there is no object to call. *)
Definition mutate_via (key : string) (f : DataType -> DataType)
  (hm : HierarchicalMap) (heap : list DataType) : option (list DataType) :=
  match FindData key hm with
  | Some l =>
      match heap !! l with
      | Some d => Some (<[l := f d]> heap)
      | None => None
      end
  | None => None
  end.

End payloads.
End HMap.

(** ** [ThreadDataManager] *)

(** The singleton as seen by one calling thread: [_logid_ptr] is that
    thread's [thread_local] pointer ([None] when null), [heap] holds the
    [ThreadData] objects by address. *)
Record ThreadDataManager := mkThreadDataManager {
  _logid_ptr : option string;
  data_map_ : HierarchicalMap;
  dummy_counter_ : N;
  heap : list ThreadData
}.

(** A returned [std::shared_ptr<ThreadData>]. *)
Inductive SharedPtr :=
| NullPtr
| Owner (l : nat)
| Guard (g : KeyGuard).

(** A call either returns or runs into undefined behaviour. *)
Inductive Outcome (A : Type) :=
| Returned (a : A)
| Undefined (what : string).
Arguments Returned {A} a.
Arguments Undefined {A} what.

Module Manager.

Definition create : ThreadDataManager :=
  {| _logid_ptr := None; data_map_ := HMap.empty; dummy_counter_ := 0%N; heap := [] |}.

(** [*p] *)
Definition deref {A : Type} (p : option A) : Outcome A :=
  match p with
  | Some a => Returned a
  | None => Undefined "null pointer dereference"
  end.

Definition of_guard (o : option KeyGuard) : SharedPtr :=
  match o with
  | Some g => Guard g
  | None => NullPtr
  end.

(** Returns the manager and the line written to [std::cout]. *)
Definition clear_if_exist (m : ThreadDataManager) : ThreadDataManager * list string :=
  match _logid_ptr m with
  | None => (m, [])
  | Some old =>
      ({| _logid_ptr := None; data_map_ := data_map_ m;
          dummy_counter_ := dummy_counter_ m; heap := heap m |},
       [("find old logid: " +:+ old +:+ ", need to clear it")%string])
  end.

Definition set_logid (logid : string) (m : ThreadDataManager) : ThreadDataManager :=
  {| _logid_ptr := Some logid; data_map_ := data_map_ m;
     dummy_counter_ := dummy_counter_ m; heap := heap m |}.

(** [dummy_counter_.fetch_add(1)] on a [uint64_t]. *)
Definition GenerateDummyKey (logid : string) (m : ThreadDataManager)
  : string * ThreadDataManager :=
  (("dummy_" +:+ logid +:+ "_" +:+ pretty (dummy_counter_ m))%string,
   {| _logid_ptr := _logid_ptr m; data_map_ := data_map_ m;
      dummy_counter_ := ((dummy_counter_ m + 1) mod 2 ^ 64)%N; heap := heap m |}).

(** A new [ThreadData] object ([new ThreadData(logid)],
    [std::make_shared<ThreadData>()]); its address is returned. *)
Definition allocate (d : ThreadData) (m : ThreadDataManager)
  : nat * ThreadDataManager :=
  (length (heap m),
   {| _logid_ptr := _logid_ptr m; data_map_ := data_map_ m;
      dummy_counter_ := dummy_counter_ m; heap := heap m ++ [d] |}).

Definition with_map (hm : HierarchicalMap) (m : ThreadDataManager) : ThreadDataManager :=
  {| _logid_ptr := _logid_ptr m; data_map_ := hm;
     dummy_counter_ := dummy_counter_ m; heap := heap m |}.

(** [!p] *)
Definition is_null {A : Type} (p : option A) : bool :=
  match p with
  | Some _ => false
  | None => true
  end.

(** Returns the pointer, the manager and the lines written to [std::cerr]. *)
Definition GetCurrentThreadData (m : ThreadDataManager)
  : DataPtr * ThreadDataManager * list string :=
  match _logid_ptr m with
  | None =>
      let '(l, m') := allocate Data.create m in
      (Some l, m', ["ThreadData not initialized"%string])
  | Some logid =>
      match HMap.FindData logid (data_map_ m) with
      | None =>
          let '(l, m') := allocate Data.create m in
          (Some l, m',
           [("ThreadData initialized, but cannot find in map." +:+ ", logid: " +:+ logid)%string])
      | Some l => (Some l, m, [])
      end
  end.

(** The test on [_logid_ptr] is written [if (_logid_ptr)] here, where
    [GetCurrentThreadData] has [if (!_logid_ptr)]. *)
Definition GetKeyGuard (m : ThreadDataManager)
  : Outcome (SharedPtr * ThreadDataManager * list string) :=
  if negb (is_null (_logid_ptr m)) then
    let '(l, m') := allocate Data.create m in
    Returned (Owner l, m', ["ThreadData not initialized"%string])
  else
    match deref (_logid_ptr m) with
    | Undefined what => Undefined what
    | Returned logid =>
        Returned (of_guard (HMap.GetKeyGuard logid (data_map_ m)), m, [])
    end.

Definition Init (logid : string) (m : ThreadDataManager)
  : DataPtr * ThreadDataManager * list string :=
  let '(m1, out1) := clear_if_exist m in
  let m2 := set_logid logid m1 in
  let '(m5, out2) :=
    match HMap.FindData logid (data_map_ m2) with
    | None =>
        let '(l, m3) := allocate (Data.create_with logid) m2 in
        let '(hm, err) := HMap.AddData logid (Some l) "" (data_map_ m3) in
        (with_map hm m3, ("Adding new ThreadData: " +:+ logid)%string :: err)
    | Some l =>
        let '(dummy_key, m3) := GenerateDummyKey logid m2 in
        let '(m4, out) := clear_if_exist m3 in
        let '(hm, err) :=
          HMap.AddData dummy_key (Some l) logid (data_map_ (set_logid dummy_key m4)) in
        (with_map hm (set_logid dummy_key m4),
         ("Adding dummy key: " +:+ dummy_key +:+ ", for logid: " +:+ logid)%string
           :: out ++ err)
    end in
  let '(p, m6, out3) := GetCurrentThreadData m5 in
  (p, m6, out1 ++ out2 ++ out3).

(** The calls a thread can make on the singleton. *)
Inductive Call :=
| CallInit (logid : string)
| CallGetCurrentThreadData
| CallGetKeyGuard.

(** The manager after a call; [None] when the call is undefined. *)
Definition call (c : Call) (m : ThreadDataManager) : option ThreadDataManager :=
  match c with
  | CallInit logid => Some (snd (fst (Init logid m)))
  | CallGetCurrentThreadData => Some (snd (fst (GetCurrentThreadData m)))
  | CallGetKeyGuard =>
      match GetKeyGuard m with
      | Returned r => Some (snd (fst r))
      | Undefined _ => None
      end
  end.

Fixpoint calls (cs : list Call) (m : ThreadDataManager) : option ThreadDataManager :=
  match cs with
  | [] => Some m
  | c :: cs' =>
      match call c m with
      | Some m' => calls cs' m'
      | None => None
      end
  end.

(** Every key of the map holds a pointer that is not null and is the
    address of an object. *)
Definition pointers_valid (m : ThreadDataManager) : Prop :=
  forall k d, map_ (data_map_ m) !! k = Some d ->
    exists l : nat, d = Some l /\ (l < length (heap m))%nat.

End Manager.

(** * Properties *)

(** ** Facts about [std::map] *)

Section std_map_facts.
Context {V : Type}.
Implicit Types (m : StdMap.t V) (k : string) (v : V).

Lemma compare_refl k : String.compare k k = Eq.
Proof.
  pose proof (String.compare_antisym k k) as H.
  destruct (String.compare k k); simpl in H; congruence.
Qed.

Lemma compare_gt_lt a b : String.compare a b = Gt -> StdMap.key_lt b a.
Proof.
  unfold StdMap.key_lt. rewrite (String.compare_antisym b a).
  intros ->. reflexivity.
Qed.

Lemma find_assign_eq k v m : StdMap.find k (StdMap.assign k v m) = Some v.
Proof.
  induction m as [|[k' v'] m IH]; simpl.
  - now rewrite String.eqb_refl.
  - destruct (String.compare k k') eqn:E; simpl.
    + apply String.compare_eq_iff in E. subst. now rewrite String.eqb_refl.
    + now rewrite String.eqb_refl.
    + destruct (String.eqb_spec k k') as [->|_]; [|exact IH].
      rewrite compare_refl in E. discriminate.
Qed.

Lemma find_assign_ne k k0 v m :
  k0 <> k -> StdMap.find k0 (StdMap.assign k v m) = StdMap.find k0 m.
Proof.
  intros Hne. induction m as [|[k' v'] m IH]; simpl.
  - destruct (String.eqb_spec k0 k); [contradiction|reflexivity].
  - destruct (String.compare k k') eqn:E; simpl.
    + apply String.compare_eq_iff in E. subst k'.
      destruct (String.eqb_spec k0 k); [contradiction|reflexivity].
    + destruct (String.eqb_spec k0 k); [contradiction|reflexivity].
    + rewrite IH. reflexivity.
Qed.

Lemma count_true_iff k m : StdMap.count k m = true <-> is_Some (StdMap.find k m).
Proof.
  unfold StdMap.count. destruct (StdMap.find k m) as [v|]; split; intros H.
  - by exists v.
  - reflexivity.
  - discriminate.
  - destruct H as [v H]. discriminate.
Qed.

Lemma hdrel_assign k k0 v m :
  StdMap.key_lt k0 k -> HdRel StdMap.key_lt k0 (StdMap.keys m) ->
  HdRel StdMap.key_lt k0 (StdMap.keys (StdMap.assign k v m)).
Proof.
  intros Hlt Hhd. destruct m as [|[k' v'] m]; simpl.
  - constructor. exact Hlt.
  - inversion Hhd; subst.
    destruct (String.compare k k'); simpl; constructor; assumption.
Qed.

Lemma ascending_assign k v m :
  StdMap.ascending m -> StdMap.ascending (StdMap.assign k v m).
Proof.
  unfold StdMap.ascending.
  induction m as [|[k' v'] m IH]; simpl; intros Hs.
  - repeat constructor.
  - inversion Hs as [|? ? Hs' Hhd]; subst.
    destruct (String.compare k k') eqn:E; simpl.
    + constructor; assumption.
    + constructor; [exact Hs|]. constructor. exact E.
    + constructor; [apply IH; exact Hs'|].
      apply hdrel_assign; [apply compare_gt_lt; exact E|exact Hhd].
Qed.

Lemma ascending_empty : StdMap.ascending (@StdMap.empty V).
Proof. constructor. Qed.

Lemma ascending_update dflt f k m :
  StdMap.ascending m -> StdMap.ascending (StdMap.update dflt f k m).
Proof. apply ascending_assign. Qed.

End std_map_facts.

(** ** [TimeRecorder]: one emission per lifetime *)

Section recorder_facts.
Import Recorder.
Implicit Types (tr : TimeRecorder) (ops : list Op) (o : option TimeRecorder).

Lemma run_app ops1 ops2 o :
  run (ops1 ++ ops2) o =
  (fst (run ops2 (fst (run ops1 o))),
   snd (run ops1 o) ++ snd (run ops2 (fst (run ops1 o)))).
Proof.
  revert o. induction ops1 as [|op ops1 IH]; intros o; simpl.
  - by destruct (run ops2 o).
  - destruct (step op o) as [o1 es1]. rewrite IH.
    destruct (run ops1 o1) as [o2 es2]; simpl.
    by rewrite app_assoc.
Qed.

Lemma run_destroyed ops : run ops None = (None, []).
Proof. induction ops as [|op ops IH]; simpl; [done|]. by rewrite IH. Qed.

Lemma run_ends_destroyed ops now o : fst (run (ops ++ [OpDestroy now]) o) = None.
Proof.
  rewrite run_app; simpl.
  destruct (fst (run ops o)); simpl; reflexivity.
Qed.

(** After the emission nothing is emitted again. *)
Lemma run_uploaded ops tr :
  _uploaded tr = true -> _is_end tr = true -> snd (run ops (Some tr)) = [].
Proof.
  revert tr. induction ops as [|op ops IH]; intros tr Hu He; simpl; [done|].
  destruct op as [now|now|now|now]; simpl.
  - unfold start. rewrite He; simpl.
    specialize (IH tr Hu He). by destruct (run ops (Some tr)).
  - unfold end_. rewrite He.
    specialize (IH tr Hu He). by destruct (run ops (Some tr)).
  - unfold end_. rewrite He.
    specialize (IH tr Hu He). by destruct (run ops (Some tr)).
  - unfold destroy, upload. rewrite Hu; simpl. by rewrite run_destroyed.
Qed.

(** The recorder has just emitted: the calls that follow add nothing. *)
Ltac silent_afterwards ops :=
  match goal with
  | |- context [run ops (Some ?t)] =>
      let Hnil := fresh "Hnil" in
      pose proof (run_uploaded ops t eq_refl eq_refl) as Hnil;
      destruct (run ops (Some t)) as [? ?]; simpl in *; rewrite Hnil; simpl
  end.

(** The trace is the one emission just made by [tr]. *)
Ltac single_emission tr :=
  split; [lia|]; split; [done|];
  let e := fresh "e" in
  let Hin := fresh "Hin" in
  intros e Hin; apply list_elem_of_singleton in Hin; subst e; simpl;
  split; [done|]; unfold first_start; by destruct (_is_start tr).

Lemma run_pending ops tr :
  _uploaded tr = false -> _is_end tr = false ->
  (length (snd (run ops (Some tr))) <= 1)%nat /\
  (fst (run ops (Some tr)) = None -> length (snd (run ops (Some tr))) = 1%nat) /\
  (forall e, e ∈ snd (run ops (Some tr)) ->
     em_name e = _name tr /\ em_start e = first_start tr ops).
Proof.
  revert tr. induction ops as [|op ops IH]; intros tr Hu He; simpl.
  - split; [lia|]. split; [done|]. intros e H. by apply elem_of_nil in H.
  - destruct op as [now|now|now|now]; simpl.
    + destruct (IH (start now tr)) as (IH1 & IH2 & IH3).
      { unfold start. rewrite He; simpl. by destruct (_is_start tr). }
      { unfold start. rewrite He; simpl. by destruct (_is_start tr). }
      destruct (run ops (Some (start now tr))) as [o es] eqn:E; simpl in *.
      split; [exact IH1|]. split; [exact IH2|].
      intros e Hin. destruct (IH3 e Hin) as [Hn Hs]. split.
      * rewrite Hn. unfold start. rewrite He; simpl. by destruct (_is_start tr).
      * rewrite Hs. unfold first_start, start. rewrite He; simpl.
        destruct (_is_start tr) eqn:Es; simpl; by rewrite ?Es.
    + unfold end_, upload. rewrite He; simpl. rewrite Hu; simpl.
      silent_afterwards ops. single_emission tr.
    + unfold end_, upload. rewrite He; simpl. rewrite Hu; simpl.
      silent_afterwards ops. single_emission tr.
    + unfold destroy, upload. rewrite Hu, He; simpl. rewrite run_destroyed; simpl.
      single_emission tr.
Qed.

End recorder_facts.

(** C3. Whatever calls a recorder receives ([start], [end], the [end] forced by
    a report, its destruction), the callback has been invoked at most once
    after any of them, and exactly once by the time the recorder is
    destroyed.  The emission carries the recorder's name, and as start the
    instant of the [start()] that preceded it, or the creation instant when
    there was none. *)
Theorem recorder_emits_exactly_once (name : string) (created : Z) (junk : Z * Z)
  (ops : list Recorder.Op) (destroyed_at : Z) :
  let fresh := Some (Recorder.create name created junk) in
  let lifetime := ops ++ [Recorder.OpDestroy destroyed_at] in
  (length (snd (Recorder.run ops fresh)) <= 1)%nat /\
  exists e, snd (Recorder.run lifetime fresh) = [e] /\
            em_name e = name /\
            em_start e = Recorder.effective_start created lifetime.
Proof.
  intros fresh lifetime.
  split.
  - by apply (run_pending ops (Recorder.create name created junk)).
  - destruct (run_pending lifetime (Recorder.create name created junk) eq_refl eq_refl)
      as (_ & Hone & Hem).
    specialize (Hone (run_ends_destroyed ops destroyed_at fresh)).
    fold fresh in Hone, Hem.
    destruct (snd (Recorder.run lifetime fresh)) as [|e [|e' es]]; try discriminate.
    exists e. split; [done|]. apply Hem. by apply list_elem_of_singleton.
Qed.

(** ** [TimeCounter]: merging emissions *)

Section merge_facts.
Implicit Types (e : Emission) (es : list Emission) (spans : StdMap.t (Z * Z)) (n : string).

(** The pair the callback leaves under the emitted name. *)
Lemma find_callback_same e spans :
  StdMap.find (em_name e) (Counter.callback e spans) =
  Some match StdMap.find (em_name e) spans with
       | Some (lo, hi) => (Z.min lo (em_start e), Z.max hi (em_end e))
       | None => (em_start e, em_end e)
       end.
Proof.
  unfold Counter.callback, StdMap.update, StdMap.subscript, StdMap.count.
  rewrite !find_assign_eq.
  destruct (StdMap.find (em_name e) spans) as [[lo hi]|] eqn:E; simpl.
  - by rewrite E.
  - rewrite find_assign_eq; simpl. by rewrite Z.min_id, Z.max_id.
Qed.

Lemma find_callback_other e spans n :
  n <> em_name e -> StdMap.find n (Counter.callback e spans) = StdMap.find n spans.
Proof.
  intros Hne. unfold Counter.callback, StdMap.update.
  rewrite !find_assign_ne by done.
  destruct (StdMap.count (em_name e) spans); [done|].
  by rewrite find_assign_ne.
Qed.

Lemma ascending_callback e spans :
  StdMap.ascending spans -> StdMap.ascending (Counter.callback e spans).
Proof.
  intros H. unfold Counter.callback.
  do 2 apply ascending_update.
  destruct (StdMap.count (em_name e) spans); [done|]. by apply ascending_assign.
Qed.

Lemma ascending_deliver es spans :
  StdMap.ascending spans -> StdMap.ascending (Counter.deliver es spans).
Proof.
  revert spans. induction es as [|e es IH]; intros spans H; simpl; [done|].
  apply IH. by apply ascending_callback.
Qed.

(** Delivering to a table that already has a pair for [n]. *)
Lemma deliver_widens es spans n lo hi :
  StdMap.find n spans = Some (lo, hi) ->
  exists lo' hi',
    StdMap.find n (Counter.deliver es spans) = Some (lo', hi') /\
    lo' <= lo /\ hi <= hi' /\
    (lo' = lo \/ exists e, e ∈ es /\ em_name e = n /\ em_start e = lo') /\
    (hi' = hi \/ exists e, e ∈ es /\ em_name e = n /\ em_end e = hi') /\
    (forall e, e ∈ es -> em_name e = n -> lo' <= em_start e /\ em_end e <= hi').
Proof.
  revert spans lo hi. induction es as [|e es IH]; intros spans lo hi Hf; simpl.
  - exists lo, hi. split; [done|]. split; [lia|]. split; [lia|].
    split; [by left|]. split; [by left|].
    intros e H. by apply elem_of_nil in H.
  - destruct (decide (n = em_name e)) as [->|Hne].
    + pose proof (find_callback_same e spans) as Hc. rewrite Hf in Hc.
      destruct (IH _ _ _ Hc) as (lo' & hi' & Hr & Hlo & Hhi & Hwl & Hwh & Hall).
      exists lo', hi'. split; [done|]. split; [lia|]. split; [lia|].
      split; [|split].
      * destruct Hwl as [->|(e' & Hin & Hn & Hs)].
        -- destruct (Z.min_spec lo (em_start e)) as [[_ ->]|[_ ->]]; [by left|].
           right. exists e. split; [by left|]. done.
        -- right. exists e'. split; [by right|]. done.
      * destruct Hwh as [->|(e' & Hin & Hn & Hs)].
        -- destruct (Z.max_spec hi (em_end e)) as [[_ ->]|[_ ->]]; [|by left].
           right. exists e. split; [by left|]. done.
        -- right. exists e'. split; [by right|]. done.
      * intros e' Hin Hn. apply elem_of_cons in Hin as [->|Hin]; [lia|].
        by apply Hall.
    + assert (StdMap.find n (Counter.callback e spans) = Some (lo, hi)) as Hc.
      { by rewrite find_callback_other. }
      destruct (IH _ _ _ Hc) as (lo' & hi' & Hr & Hlo & Hhi & Hwl & Hwh & Hall).
      exists lo', hi'. split; [done|]. split; [lia|]. split; [lia|].
      split; [|split].
      * destruct Hwl as [->|(e' & Hin & Hn & Hs)]; [by left|].
        right. exists e'. split; [by right|]. done.
      * destruct Hwh as [->|(e' & Hin & Hn & Hs)]; [by left|].
        right. exists e'. split; [by right|]. done.
      * intros e' Hin Hn. apply elem_of_cons in Hin as [->|Hin]; [done|].
        by apply Hall.
Qed.

(** Delivering to a table without a pair for [n]: the stored pair is the
    least start and the greatest end among the emissions named [n]. *)
Lemma deliver_establishes es spans n :
  StdMap.find n spans = None ->
  (exists e, e ∈ es /\ em_name e = n) ->
  exists lo hi,
    StdMap.find n (Counter.deliver es spans) = Some (lo, hi) /\
    (exists e, e ∈ es /\ em_name e = n /\ em_start e = lo) /\
    (exists e, e ∈ es /\ em_name e = n /\ em_end e = hi) /\
    (forall e, e ∈ es -> em_name e = n -> lo <= em_start e /\ em_end e <= hi).
Proof.
  revert spans. induction es as [|e es IH]; intros spans Hf (e0 & Hin0 & Hn0).
  - by apply elem_of_nil in Hin0.
  - simpl. destruct (decide (n = em_name e)) as [->|Hne].
    + pose proof (find_callback_same e spans) as Hc. rewrite Hf in Hc.
      destruct (deliver_widens es _ _ _ _ Hc)
        as (lo & hi & Hr & Hlo & Hhi & Hwl & Hwh & Hall).
      exists lo, hi. split; [done|]. split; [|split].
      * destruct Hwl as [->|(e' & Hin & Hn & Hs)].
        -- exists e. split; [by left|]. done.
        -- exists e'. split; [by right|]. done.
      * destruct Hwh as [->|(e' & Hin & Hn & Hs)].
        -- exists e. split; [by left|]. done.
        -- exists e'. split; [by right|]. done.
      * intros e' Hin Hn. apply elem_of_cons in Hin as [->|Hin]; [lia|].
        by apply Hall.
    + apply elem_of_cons in Hin0 as [->|Hin0]; [done|].
      destruct (IH (Counter.callback e spans)) as (lo & hi & Hr & Hl & Hh & Hall).
      { by rewrite find_callback_other. }
      { by exists e0. }
      exists lo, hi. split; [done|].
      destruct Hl as (el & ? & ? & ?). destruct Hh as (eh & ? & ? & ?).
      split; [exists el; split; [by right|done]|].
      split; [exists eh; split; [by right|done]|].
      intros e' Hin Hn. apply elem_of_cons in Hin as [->|Hin]; [done|].
      by apply Hall.
Qed.

End merge_facts.

(** C2. Emissions delivered to a fresh aggregator, in whatever order: the pair
    stored for a name that was emitted is (least emitted start, greatest
    emitted end) over the emissions of that name, and it is the same pair in
    every order of delivery. *)
Theorem spans_merge_is_min_max (es es' : list Emission) (n : string) :
  Permutation es es' ->
  (exists e, e ∈ es /\ em_name e = n) ->
  exists lo hi,
    StdMap.find n (Counter.deliver es (_spans Counter.create)) = Some (lo, hi) /\
    StdMap.find n (Counter.deliver es' (_spans Counter.create)) = Some (lo, hi) /\
    (exists e, e ∈ es /\ em_name e = n /\ em_start e = lo) /\
    (exists e, e ∈ es /\ em_name e = n /\ em_end e = hi) /\
    (forall e, e ∈ es -> em_name e = n -> lo <= em_start e /\ em_end e <= hi).
Proof.
  intros Hp Hex.
  destruct (deliver_establishes es (_spans Counter.create) n eq_refl Hex)
    as (lo & hi & Hr & Hl & Hh & Hall).
  destruct (deliver_establishes es' (_spans Counter.create) n eq_refl)
    as (lo' & hi' & Hr' & Hl' & Hh' & Hall').
  { destruct Hex as (e & Hin & Hn). exists e. split; [|done]. by rewrite <- Hp. }
  exists lo, hi. split; [done|]. split; [|done].
  rewrite Hr'. f_equal.
  destruct Hl as (el & Hel & Hnl & <-). destruct Hh as (eh & Heh & Hnh & <-).
  destruct Hl' as (el' & Hel' & Hnl' & <-). destruct Hh' as (eh' & Heh' & Hnh' & <-).
  rewrite <- Hp in Hel', Heh'. rewrite Hp in Hel, Heh.
  pose proof (Hall _ Hel' Hnl'). pose proof (Hall _ Heh' Hnh').
  pose proof (Hall' _ Hel Hnl). pose proof (Hall' _ Heh Hnh).
  f_equal; lia.
Qed.

Lemma spans_merge_is_min_max_witness :
  exists lo hi,
    StdMap.find "a" (Counter.deliver
      [mkEmission "a" 30 40; mkEmission "b" 5 6; mkEmission "a" 10 20]
      (_spans Counter.create)) = Some (lo, hi) /\ lo = 10 /\ hi = 40.
Proof.
  destruct (spans_merge_is_min_max
    [mkEmission "a" 30 40; mkEmission "b" 5 6; mkEmission "a" 10 20]
    [mkEmission "b" 5 6; mkEmission "a" 10 20; mkEmission "a" 30 40] "a")
    as (lo & hi & Hr & _).
  - apply Permutation_cons_append with (l := [_; _]).
  - exists (mkEmission "a" 30 40). split; [by left|done].
  - exists lo, hi. split; [done|]. vm_compute in Hr. by inversion Hr.
Defined.

(** ** [ThreadData]: log fields and report *)

Section data_facts.
Implicit Types (d : ThreadData) (tc : TimeCounter).

Lemma ascending_counter_call (c : Counter.Call) tc :
  StdMap.ascending (_spans tc) -> StdMap.ascending (_spans (Counter.call c tc)).
Proof.
  intros H. destruct c as [name now junk|h op|clock]; simpl.
  - done.
  - unfold Counter.on_recorder.
    destruct (Recorder.step op (mjoin (_trs tc !! h))) as [o es]; simpl.
    by apply ascending_deliver.
  - unfold Counter.report.
    destruct (Counter.end_all clock 0 (_trs tc)) as [trs' es]; simpl.
    by apply ascending_deliver.
Qed.

Lemma ascending_counter_calls (cs : list Counter.Call) tc :
  StdMap.ascending (_spans tc) -> StdMap.ascending (_spans (Counter.calls cs tc)).
Proof.
  revert tc. induction cs as [|c cs IH]; intros tc H; simpl; [done|].
  apply IH. by apply ascending_counter_call.
Qed.

Lemma ascending_data_call (c : Data.Call) d :
  StdMap.ascending (_log_fields d) -> StdMap.ascending (_log_fields (Data.call c d)).
Proof.
  intros H. destruct c as [logid|key value ow|c|clock]; simpl; try done.
  - unfold Data.add_log_field.
    destruct (StdMap.count key (_log_fields d) && negb ow); [done|].
    simpl. by apply ascending_assign.
  - unfold Data.report. by destruct (Counter.report clock (_tc d)).
Qed.

Lemma ascending_data_calls (cs : list Data.Call) d :
  StdMap.ascending (_log_fields d) -> StdMap.ascending (_log_fields (Data.calls cs d)).
Proof.
  revert d. induction cs as [|c cs IH]; intros d H; simpl; [done|].
  apply IH. by apply ascending_data_call.
Qed.

End data_facts.

(** C9 (as the code has it). When the key is not yet set, or the first call
    asks to overwrite, [add_log_field(k, v1)] stores [v1]; a following
    [add_log_field(k, v2)] without overwrite changes nothing, and with
    overwrite it stores [v2]. *)
Theorem add_log_field_first_write_wins (d : ThreadData) (k v1 v2 : string) (ow : bool) :
  StdMap.find k (_log_fields d) = None \/ ow = true ->
  let d1 := Data.add_log_field k v1 ow d in
  StdMap.find k (_log_fields d1) = Some v1 /\
  Data.add_log_field k v2 false d1 = d1 /\
  StdMap.find k (_log_fields (Data.add_log_field k v2 true d1)) = Some v2.
Proof.
  intros H d1.
  assert (StdMap.find k (_log_fields d1) = Some v1) as H1.
  { subst d1. unfold Data.add_log_field, StdMap.count.
    destruct H as [-> | ->]; simpl.
    - apply find_assign_eq.
    - rewrite andb_false_r. simpl. apply find_assign_eq. }
  split; [exact H1|]. split.
  - unfold Data.add_log_field at 1, StdMap.count. by rewrite H1.
  - unfold Data.add_log_field at 1. rewrite andb_false_r. simpl.
    apply find_assign_eq.
Qed.

Lemma add_log_field_first_write_wins_witness :
  let d1 := Data.add_log_field "k" "v1" false (Data.create_with "req") in
  StdMap.find "k" (_log_fields d1) = Some "v1"%string /\
  Data.add_log_field "k" "v2" false d1 = d1 /\
  StdMap.find "k" (_log_fields (Data.add_log_field "k" "v2" true d1)) = Some "v2"%string.
Proof.
  apply (add_log_field_first_write_wins (Data.create_with "req") "k" "v1" "v2" false).
  left. reflexivity.
Defined.

(** C9 as stated fails when the key is already set: the first call is then
    itself a no-op and the value stays what it was before both calls. *)
Lemma add_log_field_existing_key_counterexample :
  ~ (forall (d : ThreadData) (k v1 v2 : string),
       StdMap.find k
         (_log_fields (Data.add_log_field k v2 false (Data.add_log_field k v1 false d)))
       = Some v1).
Proof.
  intros H.
  specialize (H (Data.add_log_field "k" "v0" false (Data.create_with "req"))
                "k"%string "v1"%string "v2"%string).
  vm_compute in H. discriminate H.
Qed.

(** C6 (as the code has it). A [ThreadData] made by a constructor and any
    calls reports [[logid: <id>]], then one [ [<key>: <value>]] per log field
    in ascending key order, then one space and the aggregator's report (so
    with nothing to report from the aggregator the string ends with that
    space). *)
Theorem report_layout (id : string) (cs : list Data.Call) (clock : nat -> Z) :
  let d := Data.calls cs (Data.create_with id) in
  let spans := fst (Counter.report clock (_tc d)) in
  fst (Data.report clock d) =
    ("[logid: " +:+ _logid d +:+ "]"
     +:+ Data.concat_strings
           (map (fun item => " [" +:+ fst item +:+ ": " +:+ snd item +:+ "]")
                (_log_fields d))
     +:+ " " +:+ spans)%string /\
  Sorted StdMap.key_lt (map fst (_log_fields d)).
Proof.
  intros d spans. subst spans. split.
  - unfold Data.report. by destruct (Counter.report clock (_tc d)).
  - apply (ascending_data_calls cs (Data.create_with id)). constructor.
Qed.

(** C6 as stated fails on a fresh object: the label is [logid] and a space
    follows the last bracket. *)
Lemma report_layout_counterexample :
  fst (Data.report (fun _ => 0) (Data.create_with "r")) = "[logid: r] "%string /\
  fst (Data.report (fun _ => 0) (Data.create_with "r")) <> "[identifier: r]"%string.
Proof. split; [reflexivity|]. vm_compute. discriminate. Qed.

(** ** [TimeCounter]: report *)

Section render_facts.

Lemma substring_all (n : nat) (s : string) :
  (String.length s <= n)%nat -> String.substring 0 n s = s.
Proof.
  revert n. induction s as [|c s IH]; intros n Hn; simpl in *.
  - by destruct n.
  - destruct n as [|n]; [lia|]. simpl. f_equal. apply IH. lia.
Qed.

(** An entry that fits the buffer and whose name has no NUL is rendered
    whole. *)
Lemma snprintf_span_fits (name : string) (first second : Z) :
  c_str name = name ->
  let entry := ("[" +:+ name +:+ ": " +:+ format_ms (wrap64 (second - first)) +:+ "(ms)]")%string in
  (String.length entry <= 99)%nat ->
  snprintf_span (name, (first, second)) = entry.
Proof.
  intros Hc entry Hlen. unfold snprintf_span. rewrite Hc.
  by apply substring_all.
Qed.

Lemma render_cons2 (i j : string * (Z * Z)) (spans : StdMap.t (Z * Z)) :
  Counter.render (i :: j :: spans) =
  Counter.join ((snprintf_span i +:+ (" " +:+ snprintf_span j))%string
                :: map snprintf_span spans).
Proof. reflexivity. Qed.

(** The example of the specification. *)
Lemma render_example :
  Counter.render [("a"%string, (0, 100)); ("b"%string, (50, 200))]
  = "[a: 0.100(ms)] [b: 0.150(ms)]"%string.
Proof. reflexivity. Qed.

Lemma render_empty : Counter.render StdMap.empty = ""%string.
Proof. reflexivity. Qed.

(** The report renders the table left by the forced ends, whose names
    ascend. *)
Lemma report_renders_spans (cs : list Counter.Call) (clock : nat -> Z) :
  let tc := Counter.calls cs Counter.create in
  let '(out, tc') := Counter.report clock tc in
  out = Counter.join (map snprintf_span (_spans tc')) /\
  Sorted StdMap.key_lt (map fst (_spans tc')).
Proof.
  intros tc.
  pose proof (ascending_counter_call (Counter.CallReport clock) tc
                (ascending_counter_calls cs Counter.create ascending_empty)) as Hs.
  simpl in Hs. unfold Counter.report in *.
  destruct (Counter.end_all clock 0 (_trs tc)) as [trs' es]; simpl in *.
  split; [reflexivity|exact Hs].
Qed.

End render_facts.

(** C7 (where the code departs from it). One recorder named with 100 bytes,
    created at 0 and ended at 100: the table holds the span, but its entry
    in the report is cut after 99 bytes, inside the name. *)
Theorem report_truncates_long_entry :
  let name := String.concat "" (repeat "a"%string 100) in
  let tc := Counter.calls
              [Counter.CallAddRecorder name 0 (0, 0);
               Counter.CallOnRecorder 0 (Recorder.OpEnd 100)] Counter.create in
  _spans tc = [(name, (0, 100))] /\
  fst (Counter.report (fun _ => 0) tc)
    = ("[" +:+ String.concat "" (repeat "a"%string 98))%string /\
  fst (Counter.report (fun _ => 0) tc) <> ("[" +:+ name +:+ ": 0.100(ms)]")%string.
Proof.
  split; [reflexivity|]. split; [reflexivity|].
  vm_compute. discriminate.
Qed.

(** ** [HierarchicalMap]: registration *)

Section hmap_facts.
Implicit Types (hm : HierarchicalMap) (c : gmap string (gset string))
  (key k a b x y : string) (data : DataPtr).

Lemma emplace_children_lookup key c x :
  HMap.emplace_children key c !! x =
  if decide (x = key) then Some (default ∅ (c !! key)) else c !! x.
Proof.
  unfold HMap.emplace_children.
  destruct (c !! key) as [cs|] eqn:E; case_decide; subst; simpl.
  - done.
  - done.
  - by rewrite lookup_insert_eq.
  - by rewrite lookup_insert_ne.
Qed.

Lemma child_of_emplace key c a b :
  HMap.child_of (HMap.emplace_children key c) a b <-> HMap.child_of c a b.
Proof.
  unfold HMap.child_of. setoid_rewrite emplace_children_lookup.
  split; intros (cs & Hl & Hin).
  - case_decide; subst; [|by exists cs].
    destruct (c !! key) as [cs'|] eqn:E; simpl in *.
    + exists cs'. split; [done|]. congruence.
    + inversion Hl; subst. set_solver.
  - exists cs. split; [|done]. case_decide; subst; [|done]. by rewrite Hl.
Qed.

(** Without a usable base key the call stores [data] under [key] and
    leaves every child set as it was. *)
Lemma AddData_top_level key data baseKey hm :
  baseKey = ""%string \/ map_ hm !! baseKey = None ->
  fst (HMap.AddData key data baseKey hm) =
  {| map_ := <[key := data]> (map_ hm);
     children_ := HMap.emplace_children key (children_ hm) |}.
Proof.
  unfold HMap.AddData. intros [-> | Hnone]; simpl; [done|].
  destruct (negb (baseKey =? "")%string); [|done]. by rewrite Hnone.
Qed.

Lemma AddData_derived key data baseKey base_data hm :
  baseKey <> ""%string -> map_ hm !! baseKey = Some base_data ->
  HMap.AddData key data baseKey hm =
  ({| map_ := <[key := base_data]> (map_ hm);
      children_ := HMap.emplace_children key
        (<[baseKey := default ∅ (children_ hm !! baseKey) ∪ {[key]}]> (children_ hm)) |},
   []).
Proof.
  unfold HMap.AddData. intros Hne Hsome.
  destruct (String.eqb_spec baseKey "") as [->|_]; [done|]. simpl.
  by rewrite Hsome.
Qed.

Lemma consistent_empty : HMap.consistent HMap.empty.
Proof. intros k. simpl. by rewrite !lookup_empty. Qed.

Lemma consistent_AddData key data baseKey hm :
  HMap.consistent hm -> HMap.consistent (fst (HMap.AddData key data baseKey hm)).
Proof.
  intros Hc k.
  destruct (decide (baseKey = ""%string)) as [He|Hne];
    [|destruct (map_ hm !! baseKey) as [bd|] eqn:Hb].
  - rewrite AddData_top_level by auto. simpl.
    rewrite emplace_children_lookup, lookup_insert.
    repeat case_decide; subst; try done; apply Hc.
  - rewrite (AddData_derived _ _ _ bd) by done. simpl.
    rewrite emplace_children_lookup, lookup_insert.
    repeat case_decide; subst; try done.
    rewrite lookup_insert. case_decide; subst.
    + split; intros _; [done|]. by exists bd.
    + apply Hc.
  - rewrite AddData_top_level by auto. simpl.
    rewrite emplace_children_lookup, lookup_insert.
    repeat case_decide; subst; try done; apply Hc.
Qed.

Lemma FindData_insert key data hm c :
  HMap.FindData key {| map_ := <[key := data]> (map_ hm); children_ := c |} = data.
Proof. unfold HMap.FindData. simpl. by rewrite lookup_insert_eq. Qed.

End hmap_facts.

(** C8 (as the code has it). [AddData] with a non-empty base key that is not
    in the map writes one line to [std::cerr] and otherwise does what the
    call with an empty base key does: [key] is bound to the supplied [data],
    [FindData] returns it, and no child set gains or loses a member. *)
Theorem AddData_missing_base (hm : HierarchicalMap) (key baseKey : string) (data : DataPtr) :
  baseKey <> ""%string ->
  map_ hm !! baseKey = None ->
  let hm' := fst (HMap.AddData key data baseKey hm) in
  snd (HMap.AddData key data baseKey hm) =
    [("there is no basekey in map, basekey: " +:+ baseKey +:+ " key: " +:+ key)%string] /\
  hm' = fst (HMap.AddData key data "" hm) /\
  map_ hm' !! key = Some data /\
  HMap.FindData key hm' = data /\
  is_Some (children_ hm' !! key) /\
  (forall p x, HMap.child_of (children_ hm') p x <-> HMap.child_of (children_ hm) p x).
Proof.
  intros Hne Hnone hm'. subst hm'.
  rewrite !AddData_top_level by auto.
  split.
  { unfold HMap.AddData. destruct (String.eqb_spec baseKey "") as [->|_]; [done|].
    simpl. by rewrite Hnone. }
  split; [done|]. simpl. split; [by rewrite lookup_insert_eq|].
  split; [apply FindData_insert|]. split.
  - rewrite emplace_children_lookup. by rewrite decide_True.
  - intros p x. apply child_of_emplace.
Qed.

Lemma AddData_missing_base_witness :
  let hm := fst (HMap.AddData "parent" (Some 0%nat) "" HMap.empty) in
  HMap.FindData "child" (fst (HMap.AddData "child" (Some 1%nat) "nobody" hm)) = Some 1%nat.
Proof.
  intros hm.
  destruct (AddData_missing_base hm "child" "nobody" (Some 1%nat))
    as (_ & _ & _ & Hfind & _).
  - discriminate.
  - reflexivity.
  - exact Hfind.
Defined.

(** C8 as stated fails for a key that was derived before: registering it
    again under a missing base key leaves it in the child set of its earlier
    base. *)
Lemma AddData_missing_base_counterexample :
  let hm0 := fst (HMap.AddData "parent" (Some 0%nat) "" HMap.empty) in
  let hm := fst (HMap.AddData "child" (Some 1%nat) "parent" hm0) in
  map_ hm !! "nobody"%string = None /\
  HMap.child_of (children_ (fst (HMap.AddData "child" (Some 2%nat) "nobody" hm)))
    "parent" "child".
Proof.
  split; [reflexivity|].
  exists {["child"%string]}. split; [reflexivity|]. set_solver.
Qed.

(** C4 (as the code has it). After [AddData(child, data, parent)] with
    [parent] a non-empty key of the map, [child] and [parent] hold the same
    pointer, and a mutation made through either key is what a read through
    the other key returns. *)
Theorem AddData_shares_payload {DataType : Type} (hm : HierarchicalMap)
  (child parent : string) (data : DataPtr) :
  parent <> ""%string ->
  is_Some (map_ hm !! parent) ->
  let hm' := fst (HMap.AddData child data parent hm) in
  map_ hm' !! child = map_ hm' !! parent /\
  map_ hm' !! parent = map_ hm !! parent /\
  HMap.FindData child hm' = HMap.FindData parent hm' /\
  forall (heap heap' : list DataType) (f : DataType -> DataType) (via other : string),
    (via = child /\ other = parent) \/ (via = parent /\ other = child) ->
    HMap.mutate_via via f hm' heap = Some heap' ->
    exists d, HMap.read_via other hm' heap = Some d /\
              HMap.read_via other hm' heap' = Some (f d).
Proof.
  intros Hne [bd Hb] hm'. subst hm'.
  rewrite (AddData_derived _ _ _ bd) by done. simpl.
  assert (<[child := bd]> (map_ hm) !! child = Some bd) as Hc
    by apply lookup_insert_eq.
  assert (<[child := bd]> (map_ hm) !! parent = Some bd) as Hp.
  { rewrite lookup_insert. by case_decide. }
  split; [by rewrite Hc, Hp|]. split; [by rewrite Hp|].
  unfold HMap.mutate_via, HMap.read_via, HMap.FindData. simpl.
  split; [by rewrite Hc, Hp|].
  intros heap heap' f via other Hkeys Hmut.
  assert (<[child := bd]> (map_ hm) !! via = Some bd) as Hv
    by (by destruct Hkeys as [[-> _]|[-> _]]).
  assert (<[child := bd]> (map_ hm) !! other = Some bd) as Ho
    by (by destruct Hkeys as [[_ ->]|[_ ->]]).
  rewrite Hv in Hmut. rewrite Ho.
  destruct bd as [l|]; [|done].
  destruct (heap !! l) as [d|] eqn:Hd; [|done].
  inversion Hmut; subst. exists d. split; [done|].
  apply list_lookup_insert_eq. by eapply lookup_lt_Some.
Qed.

Lemma AddData_shares_payload_witness :
  let hm := fst (HMap.AddData "parent" (Some 0%nat) "" HMap.empty) in
  let hm' := fst (HMap.AddData "child" (Some 1%nat) "parent" hm) in
  let heap := [Data.create_with "parent"; Data.create_with "other"] in
  let d' := Data.add_log_field "k" "v" false (Data.create_with "parent") in
  HMap.mutate_via "child" (Data.add_log_field "k" "v" false) hm' heap
    = Some (<[0%nat := d']> heap) /\
  HMap.read_via "parent" hm' (<[0%nat := d']> heap) = Some d'.
Proof.
  intros hm hm' heap d'. split; [reflexivity|].
  destruct (AddData_shares_payload (DataType := ThreadData) hm "child" "parent" (Some 1%nat))
    as (_ & _ & _ & Hshare).
  - discriminate.
  - by exists (Some 0%nat).
  - destruct (Hshare heap (<[0%nat := d']> heap)
                (Data.add_log_field "k" "v" false) "child"%string "parent"%string)
      as (d & Hr & Hr').
    + by left.
    + reflexivity.
    + vm_compute in Hr. injection Hr as <-. exact Hr'.
Defined.

(** C4 as stated fails for the empty key: it can be registered, but as the
    third argument it means that there is no base key, and [child] keeps the
    [data] it was given. *)
Lemma AddData_empty_parent_counterexample :
  let hm := fst (HMap.AddData "" (Some 0%nat) "" HMap.empty) in
  let hm' := fst (HMap.AddData "child" (Some 1%nat) "" hm) in
  map_ hm !! ""%string = Some (Some 0%nat) /\
  map_ hm' !! "child"%string = Some (Some 1%nat) /\
  map_ hm' !! "child"%string <> map_ hm' !! ""%string.
Proof. split; [reflexivity|]. split; [reflexivity|]. vm_compute. discriminate. Qed.

(** ** [HierarchicalMap]: recursive removal *)

Section removal_facts.
Implicit Types (hm : HierarchicalMap) (c : gmap string (gset string))
  (m : gmap string DataPtr) (q rest : list string) (a b x y k : string)
  (st : RemoveState).

Lemma pending_pop a rest c :
  HMap.pending (a :: rest) c = S (HMap.pending rest c).
Proof. reflexivity. Qed.

Lemma pending_expand a rest c cs :
  c !! a = Some cs ->
  HMap.pending (rest ++ elements cs) (delete a c) = HMap.pending rest c.
Proof.
  intros Ha. unfold HMap.pending.
  rewrite (map_fold_delete_L _ _ a cs c); [|intros; lia|done].
  rewrite length_app. change (length (elements cs)) with (size cs). lia.
Qed.

Lemma reachable_no_children c a x :
  c !! a = None -> HMap.reachable c a x -> x = a.
Proof.
  intros Hn Hr. inversion Hr as [|? b ? (cs & Hl & _) _]; subst; [done|].
  congruence.
Qed.

Lemma reachable_delete_sub c a y x :
  HMap.reachable (delete a c) y x -> HMap.reachable c y x.
Proof.
  apply rtc_subrel. intros u v (cs & Hl & Hin). exists cs. split; [|done].
  apply lookup_delete_Some in Hl. by destruct Hl.
Qed.

(** A path either ends at [a], or avoids the child set of [a], or leaves
    [a] for the last time through one of its children. *)
Lemma reachable_delete_split c a y x :
  HMap.reachable c y x ->
  x = a \/ HMap.reachable (delete a c) y x \/
  exists b, HMap.child_of c a b /\ HMap.reachable (delete a c) b x.
Proof.
  unfold HMap.reachable. revert x.
  apply (rtc_ind_r (fun x => x = a \/ rtc (HMap.child_of (delete a c)) y x \/
    exists b, HMap.child_of c a b /\ rtc (HMap.child_of (delete a c)) b x)).
  - right. left. apply rtc_refl.
  - intros u v Hyu Huv IH. destruct (decide (u = a)) as [->|Hne].
    + right. right. exists v. split; [done|]. apply rtc_refl.
    + assert (HMap.child_of (delete a c) u v) as Hstep.
      { destruct Huv as (cs & Hl & Hin). exists cs. split; [|done].
        by rewrite lookup_delete_ne. }
      destruct IH as [->|[IH|(b & Hab & IH)]]; [done| |].
      * right. left. by eapply rtc_r.
      * right. right. exists b. split; [done|]. by eapply rtc_r.
Qed.

Lemma reachable_from_step_some c a rest cs x :
  c !! a = Some cs ->
  HMap.reachable_from c (a :: rest) x <->
  x = a \/ HMap.reachable_from (delete a c) (rest ++ elements cs) x.
Proof.
  intros Ha. split.
  - intros (y & Hy & Hr).
    destruct (reachable_delete_split c a y x Hr) as [->|[Hd|(b & (cs' & Hl & Hb) & Hd)]].
    + by left.
    + apply elem_of_cons in Hy as [->|Hy].
      * destruct (decide (x = a)) as [->|Hxa]; [by left|].
        apply reachable_no_children in Hd; [done|]. apply lookup_delete_eq.
      * right. exists y. split; [|done]. apply elem_of_app. by left.
    + right. exists b. split; [|done]. apply elem_of_app. right.
      apply elem_of_elements. congruence.
  - intros [->|(y & Hy & Hr)].
    + exists a. split; [by left|apply rtc_refl].
    + apply reachable_delete_sub in Hr.
      apply elem_of_app in Hy as [Hy|Hy].
      * exists y. split; [by right|done].
      * exists a. split; [by left|]. eapply rtc_l; [|exact Hr].
        exists cs. split; [done|]. by apply elem_of_elements.
Qed.

Lemma reachable_from_step_none c a rest x :
  c !! a = None ->
  HMap.reachable_from c (a :: rest) x <-> x = a \/ HMap.reachable_from c rest x.
Proof.
  intros Ha. split.
  - intros (y & Hy & Hr). apply elem_of_cons in Hy as [->|Hy].
    + left. by eapply reachable_no_children.
    + right. by exists y.
  - intros [->|(y & Hy & Hr)].
    + exists a. split; [by left|apply rtc_refl].
    + exists y. split; [by right|done].
Qed.

Lemma reachable_from_singleton c k x :
  HMap.reachable_from c [k] x <-> HMap.reachable c k x.
Proof.
  split.
  - intros (y & Hy & Hr). apply list_elem_of_singleton in Hy. by subst.
  - intros Hr. exists k. split; [by left|done].
Qed.

Lemma entry_not_in_erased_children c a x : ErasedEntry x ∉ HMap.erased_children_of c a.
Proof.
  unfold HMap.erased_children_of. destruct (c !! a); intros H.
  - apply list_elem_of_singleton in H. discriminate.
  - by apply elem_of_nil in H.
Qed.

Lemma children_not_in_erased_entry m a x : ErasedChildren x ∉ HMap.erased_entry_of m a.
Proof.
  unfold HMap.erased_entry_of. destruct (m !! a); intros H.
  - apply list_elem_of_singleton in H. discriminate.
  - by apply elem_of_nil in H.
Qed.

Lemma entry_in_erased_entry m a x :
  ErasedEntry x ∈ HMap.erased_entry_of m a <-> x = a /\ is_Some (m !! a).
Proof.
  unfold HMap.erased_entry_of. destruct (m !! a) as [v|].
  - rewrite list_elem_of_singleton. split.
    + intros [= ->]. split; [done|by exists v].
    + by intros [-> _].
  - rewrite elem_of_nil. split; [done|]. intros [_ [? ?]]. done.
Qed.

Lemma children_in_erased_children c a x :
  ErasedChildren x ∈ HMap.erased_children_of c a <-> x = a /\ is_Some (c !! a).
Proof.
  unfold HMap.erased_children_of. destruct (c !! a) as [v|].
  - rewrite list_elem_of_singleton. split.
    + intros [= ->]. split; [done|by exists v].
    + by intros [-> _].
  - rewrite elem_of_nil. split; [done|]. intros [_ [? ?]]. done.
Qed.

Lemma NoDup_erased_head c m a :
  NoDup (HMap.erased_children_of c a ++ HMap.erased_entry_of m a).
Proof.
  unfold HMap.erased_children_of, HMap.erased_entry_of.
  destruct (c !! a), (m !! a); simpl;
    rewrite ?NoDup_cons, ?list_elem_of_singleton, ?elem_of_nil;
    repeat split; try done; try apply NoDup_nil_2; tauto.
Qed.

Lemma removes_exactly_step (R R1 : string -> Prop) a m c hm' tr1 :
  (forall x, R x <-> x = a \/ R1 x) ->
  HMap.removes_exactly R1 {| map_ := delete a m; children_ := delete a c |} hm' tr1 ->
  HMap.removes_exactly R {| map_ := m; children_ := c |} hm'
    (HMap.erased_children_of c a ++ HMap.erased_entry_of m a ++ tr1).
Proof.
  intros HR (Hgone & Hframe & Hmono_m & Hmono_c & Hnd & Hent & Hch). simpl in *.
  assert (map_ hm' !! a = None) as Hma.
  { destruct (Hmono_m a) as [H|H]; [done|]. by rewrite H, lookup_delete_eq. }
  assert (children_ hm' !! a = None) as Hca.
  { destruct (Hmono_c a) as [H|H]; [done|]. by rewrite H, lookup_delete_eq. }
  assert (forall x, ErasedEntry x ∈ HMap.erased_children_of c a ++ HMap.erased_entry_of m a
            <-> x = a /\ is_Some (m !! a)) as Hhead_e.
  { intros x. rewrite elem_of_app, entry_in_erased_entry.
    pose proof (entry_not_in_erased_children c a x). tauto. }
  assert (forall x, ErasedChildren x ∈ HMap.erased_children_of c a ++ HMap.erased_entry_of m a
            <-> x = a /\ is_Some (c !! a)) as Hhead_c.
  { intros x. rewrite elem_of_app, children_in_erased_children.
    pose proof (children_not_in_erased_entry m a x). tauto. }
  rewrite app_assoc.
  split; [|split; [|split; [|split; [|split; [|split]]]]].
  - intros x HRx. destruct (decide (x = a)) as [->|Hne]; [done|].
    apply HR in HRx as [?|HRx]; [done|]. by apply Hgone.
  - intros x HRx.
    assert (x <> a) as Hne by (intros ->; apply HRx, HR; by left).
    destruct (Hframe x) as [-> ->]; [intros H1; apply HRx, HR; by right|].
    by rewrite !lookup_delete_ne.
  - intros x. destruct (decide (x = a)) as [->|Hne]; [by left|].
    destruct (Hmono_m x) as [H|H]; [by left|right].
    by rewrite H, lookup_delete_ne.
  - intros x. destruct (decide (x = a)) as [->|Hne]; [by left|].
    destruct (Hmono_c x) as [H|H]; [by left|right].
    by rewrite H, lookup_delete_ne.
  - apply NoDup_app. split; [apply NoDup_erased_head|]. split; [|done].
    intros [x|x] Hin Hin'.
    + apply Hhead_c in Hin as [-> _]. apply Hch in Hin' as [_ [? H]].
      by rewrite lookup_delete_eq in H.
    + apply Hhead_e in Hin as [-> _]. apply Hent in Hin' as [_ [? H]].
      by rewrite lookup_delete_eq in H.
  - intros x. rewrite elem_of_app, Hhead_e, Hent, HR. split.
    + intros [[-> Hs]|[HR1 [v Hs]]]; [by split; [left|]|].
      apply lookup_delete_Some in Hs as [_ Hs]. split; [by right|by exists v].
    + intros [HRx Hs]. destruct (decide (x = a)) as [->|Hne]; [by left|].
      right. rewrite lookup_delete_ne by done. by destruct HRx.
  - intros x. rewrite elem_of_app, Hhead_c, Hch, HR. split.
    + intros [[-> Hs]|[HR1 [v Hs]]]; [by split; [left|]|].
      apply lookup_delete_Some in Hs as [_ Hs]. split; [by right|by exists v].
    + intros [HRx Hs]. destruct (decide (x = a)) as [->|Hne]; [by left|].
      right. rewrite lookup_delete_ne by done. by destruct HRx.
Qed.

Lemma removes_exactly_nil (R : string -> Prop) hm :
  (forall x, ~ R x) -> HMap.removes_exactly R hm hm [].
Proof.
  intros HR. unfold HMap.removes_exactly.
  split; [intros x H; by apply HR in H|]. split; [done|].
  split; [by right|]. split; [by right|]. split; [apply NoDup_nil_2|].
  split; intros x; rewrite elem_of_nil; split; try done; intros [H _]; by apply HR in H.
Qed.

(** With fuel for [pending] turns the loop leaves through its condition,
    having taken out what the queue reaches. *)
Lemma remove_loop_spec (fuel : nat) q (removed : list string) m c (tr0 : list Erasure) :
  (HMap.pending q c <= fuel)%nat ->
  let st' := HMap.remove_loop fuel
    {| keys_to_remove := q; removed_keys := removed;
       rs_store := {| map_ := m; children_ := c |}; erasures := tr0 |} in
  keys_to_remove st' = [] /\
  exists tr, erasures st' = tr0 ++ tr /\
    HMap.removes_exactly (HMap.reachable_from c q) {| map_ := m; children_ := c |}
      (rs_store st') tr.
Proof.
  revert q removed m c tr0.
  induction fuel as [|fuel IH]; intros q removed m c tr0 Hfuel; simpl.
  - destruct q as [|a rest]; [|rewrite pending_pop in Hfuel; lia]. simpl.
    split; [done|]. exists []. rewrite app_nil_r. split; [done|].
    apply removes_exactly_nil. intros x (y & Hy & _). by apply elem_of_nil in Hy.
  - destruct q as [|a rest]; simpl.
    { split; [done|]. exists []. rewrite app_nil_r. split; [done|].
      apply removes_exactly_nil. intros x (y & Hy & _). by apply elem_of_nil in Hy. }
    rewrite pending_pop in Hfuel. unfold HMap.remove_step. simpl.
    destruct (c !! a) as [cs|] eqn:Ha.
    + destruct (IH (rest ++ elements cs) (removed ++ elements cs) (delete a m)
                  (delete a c)
                  (tr0 ++ HMap.erased_children_of c a ++ HMap.erased_entry_of m a))
        as (Hq & tr1 & Htr & Hrm).
      { rewrite (pending_expand _ _ _ cs) by done. lia. }
      split; [exact Hq|].
      exists (HMap.erased_children_of c a ++ HMap.erased_entry_of m a ++ tr1).
      split; [by rewrite Htr, <- !app_assoc|].
      eapply removes_exactly_step; [|exact Hrm].
      intros x. by apply reachable_from_step_some.
    + destruct (IH rest removed (delete a m) c
                  (tr0 ++ HMap.erased_children_of c a ++ HMap.erased_entry_of m a))
        as (Hq & tr1 & Htr & Hrm).
      { lia. }
      split; [exact Hq|].
      exists (HMap.erased_children_of c a ++ HMap.erased_entry_of m a ++ tr1).
      split; [by rewrite Htr, <- !app_assoc|].
      apply (removes_exactly_step _ (HMap.reachable_from c rest)).
      * intros x. by apply reachable_from_step_none.
      * by rewrite (delete_id c a).
Qed.

Lemma remove_final_spec k hm :
  keys_to_remove (HMap.remove_final k hm) = [] /\
  HMap.removes_exactly (HMap.reachable (children_ hm) k) hm
    (rs_store (HMap.remove_final k hm)) (erasures (HMap.remove_final k hm)).
Proof.
  unfold HMap.remove_final, HMap.remove_init. destruct hm as [m c].
  cbn [children_ map_].
  destruct (remove_loop_spec (HMap.pending [k] c) [k] [k] m c [] (le_n _))
    as (Hq & tr & Htr & Hrm).
  split; [exact Hq|]. rewrite Htr. cbn [app].
  unfold HMap.removes_exactly in *. cbn [children_ map_] in *.
  setoid_rewrite <- reachable_from_singleton. exact Hrm.
Qed.

Lemma consistent_RemoveKeyRecursive k hm :
  HMap.consistent hm -> HMap.consistent (fst (HMap.RemoveKeyRecursive k hm)).
Proof.
  intros Hc x. unfold HMap.RemoveKeyRecursive. simpl.
  destruct (remove_final_spec k hm) as (_ & Hgone & Hframe & Hm & Hch & _).
  destruct (Hm x) as [Hmx|Hmx], (Hch x) as [Hcx|Hcx].
  - by rewrite Hmx, Hcx.
  - rewrite Hmx. split; [by intros [? ?]|]. intros [cs Hs]. exfalso.
    assert (~ HMap.reachable (children_ hm) k x) as Hn.
    { intros Hr. apply Hgone in Hr as [_ Hr]. congruence. }
    apply Hframe in Hn as [Hn _].
    assert (is_Some (map_ hm !! x)) as [d Hd].
    { apply Hc. exists cs. congruence. }
    congruence.
  - rewrite Hcx. split; [|by intros [? ?]]. intros [d Hs]. exfalso.
    assert (~ HMap.reachable (children_ hm) k x) as Hn.
    { intros Hr. apply Hgone in Hr as [Hr _]. congruence. }
    apply Hframe in Hn as [_ Hn].
    assert (is_Some (children_ hm !! x)) as [cs Hd].
    { apply Hc. exists d. congruence. }
    congruence.
  - rewrite Hmx, Hcx. apply Hc.
Qed.

Lemma consistent_calls (cs : list HMap.Call) hm :
  HMap.consistent hm -> HMap.consistent (HMap.calls cs hm).
Proof.
  revert hm. induction cs as [|c cs IH]; intros hm H; simpl; [done|].
  apply IH. destruct c; simpl.
  - by apply consistent_AddData.
  - by apply consistent_RemoveKeyRecursive.
Qed.

End removal_facts.

(** C1. A guard made by [GetKeyGuard(k)] whose last owner lets go while [k]
    is in the map: the removal loop runs to its end and takes out [k] and
    every key reachable from [k] over the child sets (their payload entry
    and their child set, each erased once), leaves every other key as it
    was, and [FindData] is null on every key taken out.  An owner that is
    not the last changes nothing. *)
Theorem last_guard_removes_subtree (hm0 hm : HierarchicalMap) (k : string) (g : KeyGuard) :
  HMap.GetKeyGuard k hm0 = Some g ->
  is_Some (map_ hm !! k) ->
  let st := HMap.remove_final k hm in
  let hm' := rs_store st in
  let reached := HMap.reachable (children_ hm) k in
  HMap.drop_guard (HMap.copy_guard g) hm = (Some g, hm, []) /\
  HMap.drop_guard g hm = (None, hm', [HMap.remove_notice (removed_keys st)]) /\
  keys_to_remove st = [] /\
  reached k /\
  (forall x, reached x ->
     map_ hm' !! x = None /\ children_ hm' !! x = None /\ HMap.FindData x hm' = None) /\
  (forall x, ~ reached x ->
     map_ hm' !! x = map_ hm !! x /\ children_ hm' !! x = children_ hm !! x) /\
  NoDup (erasures st) /\
  (forall x, ErasedEntry x ∈ erasures st <-> reached x /\ is_Some (map_ hm !! x)) /\
  (forall x, ErasedChildren x ∈ erasures st <-> reached x /\ is_Some (children_ hm !! x)) /\
  ErasedEntry k ∈ erasures st.
Proof.
  intros Hg Hk st hm' reached.
  assert (g = {| guard_get := guard_get g; guard_key := k;
                 guard_data := guard_data g; use_count := 1 |}) as Hgk.
  { unfold HMap.GetKeyGuard in Hg. destruct (map_ hm0 !! k); [|done].
    by inversion Hg. }
  destruct (remove_final_spec k hm)
    as (Hq & Hgone & Hframe & _ & _ & Hnd & Hent & Hch).
  fold st in Hq, Hgone, Hframe, Hnd, Hent, Hch.
  fold hm' in Hgone, Hframe. fold reached in Hgone, Hframe, Hent, Hch.
  assert (reached k) as Hrk by apply rtc_refl.
  split; [by rewrite Hgk at 1 2|].
  split; [by rewrite Hgk|].
  split; [exact Hq|]. split; [exact Hrk|].
  split.
  { intros x Hx. destruct (Hgone x Hx) as [Hm Hc]. split; [done|]. split; [done|].
    unfold HMap.FindData. by rewrite Hm. }
  split; [exact Hframe|]. split; [exact Hnd|]. split; [exact Hent|].
  split; [exact Hch|]. by apply Hent.
Qed.

Lemma last_guard_removes_subtree_witness :
  let hm := HMap.calls
    [HMap.CallAddData "parent" (Some 0%nat) "";
     HMap.CallAddData "child" (Some 1%nat) "parent";
     HMap.CallAddData "grandchild" (Some 2%nat) "child"] HMap.empty in
  is_Some (map_ hm !! "grandchild"%string) /\
  HMap.FindData "grandchild" (rs_store (HMap.remove_final "parent" hm)) = None.
Proof.
  intros hm. split; [by exists (Some 0%nat)|].
  destruct (last_guard_removes_subtree hm hm "parent"
              {| guard_get := Some 0%nat; guard_key := "parent";
                 guard_data := Some 0%nat; use_count := 1 |})
    as (_ & _ & _ & _ & Hgone & _).
  - reflexivity.
  - by exists (Some 0%nat).
  - apply Hgone.
    apply (rtc_l _ _ "child"%string).
    { exists {["child"%string]}. split; [reflexivity|]. by apply elem_of_singleton. }
    apply rtc_once.
    exists {["grandchild"%string]}. split; [reflexivity|]. by apply elem_of_singleton.
Defined.

(** A key that sits in two child sets is pushed twice, so the notice names
    it twice; its entry and its child set are still erased once. *)
Example removal_of_shared_child :
  let hm := HMap.calls
    [HMap.CallAddData "parent" (Some 0%nat) "";
     HMap.CallAddData "left" (Some 0%nat) "parent";
     HMap.CallAddData "right" (Some 0%nat) "parent";
     HMap.CallAddData "leaf" (Some 0%nat) "left";
     HMap.CallAddData "leaf" (Some 0%nat) "right"] HMap.empty in
  let st := HMap.remove_final "parent" hm in
  length (List.filter (String.eqb "leaf") (removed_keys st)) = 2%nat /\
  length (List.filter
            (fun e => match e with
                      | ErasedEntry k => String.eqb "leaf" k
                      | ErasedChildren _ => false
                      end) (erasures st)) = 1%nat /\
  rs_store st = HMap.empty.
Proof. vm_compute. done. Qed.

(** C10. In a map made by registrations and guard releases, [AddData(k,
    data2)] with an empty base key on a key that is there binds [k] to
    [data2] and leaves every child set as it was, so a removal of [k]
    afterwards still takes out the keys that were reachable from [k]
    before. *)
Theorem AddData_rebind_keeps_children (cs : list HMap.Call) (k : string) (data2 : DataPtr) :
  is_Some (map_ (HMap.calls cs HMap.empty) !! k) ->
  let hm := HMap.calls cs HMap.empty in
  let hm' := fst (HMap.AddData k data2 "" hm) in
  map_ hm' !! k = Some data2 /\
  children_ hm' = children_ hm /\
  forall x, HMap.reachable (children_ hm) k x ->
    HMap.FindData x (fst (HMap.RemoveKeyRecursive k hm')) = None.
Proof.
  intros Hk hm hm'.
  assert (is_Some (children_ hm !! k)) as [kids Hkids].
  { by apply (consistent_calls cs HMap.empty consistent_empty). }
  assert (hm' = {| map_ := <[k := data2]> (map_ hm); children_ := children_ hm |}) as Hhm'.
  { subst hm'. rewrite AddData_top_level by auto. f_equal.
    unfold HMap.emplace_children. by rewrite Hkids. }
  split; [by rewrite Hhm'; apply lookup_insert_eq|].
  split; [by rewrite Hhm'|].
  intros x Hx. unfold HMap.RemoveKeyRecursive. simpl.
  destruct (remove_final_spec k hm') as (_ & Hgone & _).
  unfold HMap.FindData. destruct (Hgone x) as [-> _]; [|done].
  by rewrite Hhm'.
Qed.

Lemma AddData_rebind_keeps_children_witness :
  let hm := HMap.calls
    [HMap.CallAddData "parent" (Some 0%nat) "";
     HMap.CallAddData "child" (Some 1%nat) "parent"] HMap.empty in
  let hm' := fst (HMap.AddData "parent" (Some 7%nat) "" hm) in
  HMap.FindData "parent" hm' = Some 7%nat /\
  HMap.FindData "child" (fst (HMap.RemoveKeyRecursive "parent" hm')) = None.
Proof.
  intros hm hm'. split; [reflexivity|].
  destruct (AddData_rebind_keeps_children
              [HMap.CallAddData "parent" (Some 0%nat) "";
               HMap.CallAddData "child" (Some 1%nat) "parent"] "parent" (Some 7%nat))
    as (_ & _ & Hcascade).
  - by exists (Some 0%nat).
  - apply Hcascade. apply rtc_once.
    exists {["child"%string]}. split; [reflexivity|]. by apply elem_of_singleton.
Defined.

(** ** [ThreadDataManager] *)

Lemma GetKeyGuard_with_logid (m : ThreadDataManager) (logid : string) :
  _logid_ptr m = Some logid ->
  Manager.GetKeyGuard m =
  Returned (Owner (length (heap m)),
            snd (Manager.allocate Data.create m),
            ["ThreadData not initialized"%string]).
Proof. intros H. unfold Manager.GetKeyGuard. by rewrite H. Qed.

Lemma GetKeyGuard_without_logid (m : ThreadDataManager) :
  _logid_ptr m = None ->
  Manager.GetKeyGuard m = Undefined "null pointer dereference".
Proof. intros H. unfold Manager.GetKeyGuard. by rewrite H. Qed.

(** C5 (where the code departs from it). After [Init("req")] the thread's
    identifier is set and registered, yet [GetKeyGuard] writes "ThreadData
    not initialized" and returns a new detached object instead of a guard
    for ["req"]; with no identifier set it dereferences the null
    [_logid_ptr]. *)
Theorem GetKeyGuard_test_inverted :
  let m := snd (fst (Manager.Init "req" Manager.create)) in
  _logid_ptr m = Some "req"%string /\
  HMap.FindData "req" (data_map_ m) = Some 0%nat /\
  HMap.GetKeyGuard "req" (data_map_ m) =
    Some {| guard_get := Some 0%nat; guard_key := "req";
            guard_data := Some 0%nat; use_count := 1 |} /\
  Manager.GetKeyGuard m =
    Returned (Owner 1, snd (Manager.allocate Data.create m),
              ["ThreadData not initialized"%string]) /\
  Manager.GetKeyGuard Manager.create = Undefined "null pointer dereference".
Proof. repeat split; reflexivity. Qed.

(** * Further properties *)

(** ** [TimeRecorder] *)

Section recorder_more.
Import Recorder.
Implicit Types (tr : TimeRecorder) (ops : list Op) (o : option TimeRecorder).

(** Once [tr] has emitted, the calls in [ops] add nothing to the trace. *)
Ltac quiet_after ops :=
  match goal with
  | |- context [run ops (Some ?t)] =>
      rewrite (surjective_pairing (run ops (Some t)));
      rewrite (run_uploaded ops t eq_refl eq_refl); simpl
  end.

Lemma first_start_after_start now tr ops :
  _is_end tr = false ->
  first_start (start now tr) ops = first_start tr (OpStart now :: ops).
Proof.
  intros He. unfold first_start, start. rewrite He; simpl.
  destruct (_is_start tr) eqn:Es; simpl; by rewrite ?Es.
Qed.

Lemma run_pending_trace ops tr :
  _uploaded tr = false -> _is_end tr = false ->
  snd (run ops (Some tr)) =
  match first_stop ops with
  | Some stop => [mkEmission (_name tr) (first_start tr ops) stop]
  | None => []
  end.
Proof.
  revert tr. induction ops as [|op ops IH]; intros tr Hu He; simpl; [done|].
  destruct op as [now|now|now|now]; simpl.
  - assert (_uploaded (start now tr) = false /\ _is_end (start now tr) = false
            /\ _name (start now tr) = _name tr) as (Hu' & He' & Hn).
    { unfold start. rewrite He; simpl. by destruct (_is_start tr). }
    specialize (IH _ Hu' He'). rewrite first_start_after_start, Hn in IH by done.
    by destruct (run ops (Some (start now tr))).
  - unfold end_, upload. rewrite He; simpl. rewrite Hu; simpl.
    quiet_after ops. unfold first_start. by destruct (_is_start tr).
  - unfold end_, upload. rewrite He; simpl. rewrite Hu; simpl.
    quiet_after ops. unfold first_start. by destruct (_is_start tr).
  - unfold destroy, upload. rewrite Hu, He; simpl. rewrite run_destroyed; simpl.
    unfold first_start. by destruct (_is_start tr).
Qed.

End recorder_more.

(** X1. The whole callback trace of a recorder: nothing until the first
    [end()] (forced or not) or the destructor, then the single emission
    (name, effective start, instant of that call), whatever follows. *)
Theorem recorder_emission_trace (name : string) (created : Z) (junk : Z * Z)
  (ops : list Recorder.Op) :
  snd (Recorder.run ops (Some (Recorder.create name created junk))) =
  match Recorder.first_stop ops with
  | Some stop => [mkEmission name (Recorder.effective_start created ops) stop]
  | None => []
  end.
Proof.
  by rewrite (run_pending_trace ops (Recorder.create name created junk)).
Qed.

Section recorder_observation.
Import Recorder.
Implicit Types (a b : TimeRecorder) (ops : list Op).

Lemma same_observable_start now a b :
  same_observable a b -> same_observable (start now a) (start now b).
Proof.
  intros (Hn & Hc & Hs & He & Hu & Hsa & Hea). unfold start.
  rewrite <- Hs, <- He.
  destruct (_is_end a) eqn:Ee, (_is_start a) eqn:Es; simpl;
    unfold same_observable; simpl; rewrite ?Ee, ?Es; repeat split; auto; congruence.
Qed.

Lemma same_observable_upload now a b :
  same_observable a b ->
  snd (upload now a) = snd (upload now b) /\
  same_observable (fst (upload now a)) (fst (upload now b)).
Proof.
  intros (Hn & Hc & Hs & He & Hu & Hsa & Hea). unfold upload.
  rewrite <- Hu, <- Hs, <- He, <- Hn, <- Hc.
  destruct (_uploaded a) eqn:Eu; simpl.
  - split; [done|]. unfold same_observable. rewrite Eu. repeat split; auto.
  - split.
    + f_equal. f_equal.
      * destruct (_is_start a); auto.
      * destruct (_is_end a); auto.
    + unfold same_observable; simpl. repeat split; auto.
Qed.

Lemma same_observable_end now a b :
  same_observable a b ->
  snd (end_ now a) = snd (end_ now b) /\
  same_observable (fst (end_ now a)) (fst (end_ now b)).
Proof.
  intros H. pose proof H as (Hn & Hc & Hs & He & Hu & Hsa & Hea). unfold end_.
  rewrite <- He. destruct (_is_end a) eqn:Ee; simpl; [done|].
  apply same_observable_upload. unfold same_observable; simpl.
  repeat split; auto.
Qed.

Lemma same_observable_run ops a b :
  same_observable a b ->
  snd (run ops (Some a)) = snd (run ops (Some b)) /\
  option_Forall2 same_observable (fst (run ops (Some a))) (fst (run ops (Some b))).
Proof.
  revert a b. induction ops as [|op ops IH]; intros a b H; simpl.
  - split; [done|]. by constructor.
  - destruct op as [now|now|now|now]; simpl.
    + destruct (IH _ _ (same_observable_start now a b H)) as [IH1 IH2].
      destruct (run ops (Some (start now a))), (run ops (Some (start now b))).
      simpl in *. by subst.
    + destruct (same_observable_end now a b H) as [H1 H2].
      destruct (end_ now a) as [a' ea], (end_ now b) as [b' eb]. simpl in *.
      destruct (IH _ _ H2) as [IH1 IH2].
      destruct (run ops (Some a')), (run ops (Some b')). simpl in *. by subst.
    + destruct (same_observable_end now a b H) as [H1 H2].
      destruct (end_ now a) as [a' ea], (end_ now b) as [b' eb]. simpl in *.
      destruct (IH _ _ H2) as [IH1 IH2].
      destruct (run ops (Some a')), (run ops (Some b')). simpl in *. by subst.
    + rewrite run_destroyed. simpl. unfold destroy.
      destruct (same_observable_upload now a b H) as [-> _].
      split; [done|]. constructor.
Qed.

Lemma same_observable_elapsed now a b :
  same_observable a b -> get_time_from_start now a = get_time_from_start now b.
Proof.
  intros (Hn & Hc & Hs & He & Hu & Hsa & Hea). unfold get_time_from_start.
  rewrite <- Hs, <- Hc. destruct (_is_start a); [|done]. by rewrite Hsa.
Qed.

End recorder_observation.

(** X2. The members the constructor leaves uninitialised are never observed:
    whatever [_start_at] and [_end_at] held at construction, the same calls
    give the same emissions and the same [get_time_from_start]. *)
Theorem recorder_ignores_uninitialised (name : string) (created now : Z)
  (junk junk' : Z * Z) (ops : list Recorder.Op) :
  let r := Recorder.run ops (Some (Recorder.create name created junk)) in
  let r' := Recorder.run ops (Some (Recorder.create name created junk')) in
  snd r = snd r' /\
  Recorder.get_time_from_start now <$> fst r
  = Recorder.get_time_from_start now <$> fst r'.
Proof.
  intros r r'.
  destruct (same_observable_run ops (Recorder.create name created junk)
              (Recorder.create name created junk')) as [He Ho].
  { unfold Recorder.same_observable; simpl. repeat split; auto; discriminate. }
  split; [exact He|].
  fold r r' in Ho. destruct Ho as [a b Hab|]; simpl; [|done].
  f_equal. by apply same_observable_elapsed.
Qed.

(** X3. [start()] and [end()] are idempotent, and [start()] after [end()] does
    nothing: a repeated call neither changes the recorder nor emits. *)
Theorem recorder_calls_idempotent (tr : TimeRecorder) (t1 t2 : Z) :
  Recorder.start t2 (Recorder.start t1 tr) = Recorder.start t1 tr /\
  Recorder.end_ t2 (fst (Recorder.end_ t1 tr)) = (fst (Recorder.end_ t1 tr), []) /\
  Recorder.start t2 (fst (Recorder.end_ t1 tr)) = fst (Recorder.end_ t1 tr).
Proof.
  unfold Recorder.start, Recorder.end_, Recorder.upload.
  destruct tr as [n c s e st en up]; simpl.
  destruct st, en, up; simpl; repeat split; reflexivity.
Qed.

(** ** [TimeCounter] *)

Section counter_more.
Implicit Types (tc : TimeCounter) (o : option TimeRecorder)
  (trs : list (option TimeRecorder)) (spans : StdMap.t (Z * Z)).

Lemma step_keeps_sound (op : Recorder.Op) o :
  Counter.entry_sound o -> Counter.entry_sound (fst (Recorder.step op o)).
Proof.
  destruct o as [tr|]; [|done]. simpl. intros H.
  destruct tr as [n c s e st en up]; simpl in *.
  destruct op; simpl; unfold Recorder.start, Recorder.end_, Recorder.upload; simpl;
    destruct st, en, up; simpl in *; auto.
Qed.

Lemma forced_end_makes_done now o :
  Counter.entry_sound o ->
  Counter.entry_done (fst (Recorder.step (Recorder.OpForcedEnd now) o)).
Proof.
  destruct o as [tr|]; [|done]. simpl. intros H.
  destruct tr as [n c s e st en up]; simpl in *.
  unfold Recorder.end_, Recorder.upload; simpl.
  destruct st, en, up; simpl in *; auto.
Qed.

Lemma step_on_done (op : Recorder.Op) o :
  Counter.entry_done o ->
  Counter.entry_done (fst (Recorder.step op o)) /\ snd (Recorder.step op o) = [].
Proof.
  destruct o as [tr|]; [|done]. simpl. intros [He Hu].
  destruct tr as [n c s e st en up]; simpl in *. subst.
  destruct op; simpl; unfold Recorder.start, Recorder.end_, Recorder.upload,
    Recorder.destroy; simpl; destruct st; simpl; auto.
Qed.

Lemma forced_end_on_done now o :
  Counter.entry_done o -> Recorder.step (Recorder.OpForcedEnd now) o = (o, []).
Proof.
  destruct o as [tr|]; [|done]. simpl. intros [He Hu].
  unfold Recorder.end_. by rewrite He.
Qed.

Lemma end_all_makes_done clock i trs :
  Forall Counter.entry_sound trs ->
  Forall Counter.entry_done (fst (Counter.end_all clock i trs)).
Proof.
  revert i. induction trs as [|o trs IH]; intros i H; simpl; [done|].
  inversion H as [|? ? Ho Htrs]; subst.
  pose proof (forced_end_makes_done (clock i) o Ho) as Hd.
  destruct (Recorder.step (Recorder.OpForcedEnd (clock i)) o) as [o1 es1].
  specialize (IH (S i) Htrs).
  destruct (Counter.end_all clock (S i) trs) as [trs2 es2]. simpl in *.
  by constructor.
Qed.

Lemma end_all_on_done clock i trs :
  Forall Counter.entry_done trs -> Counter.end_all clock i trs = (trs, []).
Proof.
  revert i. induction trs as [|o trs IH]; intros i H; simpl; [done|].
  inversion H as [|? ? Ho Htrs]; subst.
  by rewrite (forced_end_on_done _ o Ho), (IH (S i) Htrs).
Qed.

Lemma report_on_done clock tc :
  Forall Counter.entry_done (_trs tc) ->
  Counter.report clock tc = (Counter.render (_spans tc), tc).
Proof.
  intros H. unfold Counter.report. rewrite (end_all_on_done _ _ _ H). simpl.
  by destruct tc.
Qed.

Lemma on_recorder_on_done h (op : Recorder.Op) tc :
  Forall Counter.entry_done (_trs tc) ->
  Forall Counter.entry_done (_trs (Counter.on_recorder h op tc)) /\
  _spans (Counter.on_recorder h op tc) = _spans tc.
Proof.
  intros H. unfold Counter.on_recorder.
  assert (Counter.entry_done (mjoin (_trs tc !! h))) as Hd.
  { destruct (_trs tc !! h) as [o|] eqn:E; [|done]. simpl.
    by eapply Forall_lookup_1. }
  destruct (step_on_done op _ Hd) as [Hd' Hnil].
  destruct (Recorder.step op (mjoin (_trs tc !! h))) as [o es]. simpl in *.
  subst es. split; [|done]. by apply Forall_insert.
Qed.

Lemma on_recorders_on_done (hops : list (nat * Recorder.Op)) tc :
  Forall Counter.entry_done (_trs tc) ->
  Forall Counter.entry_done (_trs (Counter.on_recorders hops tc)) /\
  _spans (Counter.on_recorders hops tc) = _spans tc.
Proof.
  revert tc. induction hops as [|[h op] hops IH]; intros tc H; simpl; [done|].
  destruct (on_recorder_on_done h op tc H) as [H1 H2].
  destruct (IH _ H1) as [H3 H4]. split; [done|]. by rewrite H4.
Qed.

Lemma end_all_keeps_sound clock i trs :
  Forall Counter.entry_sound trs ->
  Forall Counter.entry_sound (fst (Counter.end_all clock i trs)).
Proof.
  intros H. eapply Forall_impl; [by apply end_all_makes_done|].
  intros [tr|]; simpl; [|done]. by intros [_ ?] _.
Qed.

Lemma call_keeps_sound (c : Counter.Call) tc :
  Forall Counter.entry_sound (_trs tc) ->
  Forall Counter.entry_sound (_trs (Counter.call c tc)).
Proof.
  intros H. destruct c as [name now junk|h op|clock]; simpl.
  - apply Forall_app. split; [done|]. constructor; [|done]. simpl. discriminate.
  - unfold Counter.on_recorder.
    assert (Counter.entry_sound (mjoin (_trs tc !! h))) as Hs.
    { destruct (_trs tc !! h) as [o|] eqn:E; [|done]. simpl.
      by eapply Forall_lookup_1. }
    pose proof (step_keeps_sound op _ Hs) as Hs'.
    destruct (Recorder.step op (mjoin (_trs tc !! h))) as [o es]. simpl in *.
    by apply Forall_insert.
  - unfold Counter.report.
    pose proof (end_all_keeps_sound clock 0 _ H) as Hs.
    by destruct (Counter.end_all clock 0 (_trs tc)).
Qed.

Lemma calls_keep_sound (cs : list Counter.Call) tc :
  Forall Counter.entry_sound (_trs tc) ->
  Forall Counter.entry_sound (_trs (Counter.calls cs tc)).
Proof.
  revert tc. induction cs as [|c cs IH]; intros tc H; simpl; [done|].
  apply IH. by apply call_keeps_sound.
Qed.

Lemma report_makes_done clock tc :
  Forall Counter.entry_sound (_trs tc) ->
  Forall Counter.entry_done (_trs (snd (Counter.report clock tc))).
Proof.
  intros H. unfold Counter.report.
  pose proof (end_all_makes_done clock 0 _ H) as Hd.
  by destruct (Counter.end_all clock 0 (_trs tc)).
Qed.

End counter_more.

(** X4. [report()] is idempotent: a second report, at whatever later
    instants, returns the same string and leaves the aggregator as the first
    report left it. *)
Theorem report_twice (cs : list Counter.Call) (clock clock' : nat -> Z) :
  let tc := Counter.calls cs Counter.create in
  Counter.report clock' (snd (Counter.report clock tc))
  = (fst (Counter.report clock tc), snd (Counter.report clock tc)).
Proof.
  intros tc.
  assert (Forall Counter.entry_sound (_trs tc)) as Hs.
  { apply calls_keep_sound. constructor. }
  rewrite (report_on_done clock' _ (report_makes_done clock tc Hs)).
  f_equal. unfold Counter.report.
  by destruct (Counter.end_all clock 0 (_trs tc)).
Qed.

(** X5. A report is final for the recorders it has seen: whatever their owners
    do afterwards ([start], [end], letting go), the span table is as the report
    left it and the next report returns the same string. *)
Theorem report_is_final (cs : list Counter.Call) (clock clock' : nat -> Z)
  (hops : list (nat * Recorder.Op)) :
  let tc := Counter.calls cs Counter.create in
  let tc' := Counter.on_recorders hops (snd (Counter.report clock tc)) in
  _spans tc' = _spans (snd (Counter.report clock tc)) /\
  fst (Counter.report clock' tc') = fst (Counter.report clock tc).
Proof.
  intros tc tc'.
  assert (Forall Counter.entry_sound (_trs tc)) as Hs.
  { apply calls_keep_sound. constructor. }
  destruct (on_recorders_on_done hops _ (report_makes_done clock tc Hs)) as [Hd Hsp].
  fold tc' in Hd, Hsp. split; [exact Hsp|].
  rewrite (report_on_done clock' tc' Hd). simpl. rewrite Hsp.
  unfold Counter.report. by destruct (Counter.end_all clock 0 (_trs tc)).
Qed.

Section spans_monotone.
Implicit Types (tc : TimeCounter) (spans : StdMap.t (Z * Z)) (n : string).

Lemma deliver_keeps n lo hi (es : list Emission) spans :
  StdMap.find n spans = Some (lo, hi) ->
  exists lo' hi', StdMap.find n (Counter.deliver es spans) = Some (lo', hi') /\
                  lo' <= lo /\ hi <= hi'.
Proof.
  intros H. destruct (deliver_widens es spans n lo hi H)
    as (lo' & hi' & Hf & Hlo & Hhi & _).
  by exists lo', hi'.
Qed.

Lemma call_keeps_span (c : Counter.Call) tc n lo hi :
  StdMap.find n (_spans tc) = Some (lo, hi) ->
  exists lo' hi', StdMap.find n (_spans (Counter.call c tc)) = Some (lo', hi') /\
                  lo' <= lo /\ hi <= hi'.
Proof.
  intros H. destruct c as [name now junk|h op|clock]; simpl.
  - exists lo, hi. split; [done|lia].
  - unfold Counter.on_recorder.
    destruct (Recorder.step op (mjoin (_trs tc !! h))) as [o es]. simpl.
    by apply deliver_keeps.
  - unfold Counter.report.
    destruct (Counter.end_all clock 0 (_trs tc)) as [trs es]. simpl.
    by apply deliver_keeps.
Qed.

End spans_monotone.

(** X6. A span is never dropped and never narrowed: once a name has a pair,
    every later call on the aggregator or its recorders leaves it a pair
    that starts no later and ends no earlier. *)
Theorem spans_only_widen (cs : list Counter.Call) (tc : TimeCounter)
  (n : string) (lo hi : Z) :
  StdMap.find n (_spans tc) = Some (lo, hi) ->
  exists lo' hi', StdMap.find n (_spans (Counter.calls cs tc)) = Some (lo', hi') /\
                  lo' <= lo /\ hi <= hi'.
Proof.
  revert tc lo hi. induction cs as [|c cs IH]; intros tc lo hi H; simpl.
  - exists lo, hi. split; [done|lia].
  - destruct (call_keeps_span c tc n lo hi H) as (lo1 & hi1 & H1 & Hlo & Hhi).
    destruct (IH _ _ _ H1) as (lo2 & hi2 & H2 & Hlo2 & Hhi2).
    exists lo2, hi2. split; [done|lia].
Qed.

Lemma spans_only_widen_witness :
  let tc := Counter.calls
    [Counter.CallAddRecorder "a" 10 (0, 0);
     Counter.CallOnRecorder 0 (Recorder.OpEnd 20)] Counter.create in
  StdMap.find "a" (_spans tc) = Some (10, 20) /\
  exists lo' hi',
    StdMap.find "a" (_spans (Counter.calls
      [Counter.CallAddRecorder "a" 5 (0, 0);
       Counter.CallOnRecorder 1 (Recorder.OpDestroy 15)] tc)) = Some (lo', hi') /\
    lo' <= 10 /\ 20 <= hi'.
Proof.
  intros tc. split; [reflexivity|].
  apply (spans_only_widen _ tc "a" 10 20). reflexivity.
Defined.



(** ** [TimeCounter::report]: the text *)

Section text_facts.
Implicit Types (s t u : string) (view : list string).

Lemma string_app_assoc s t u : ((s +:+ t) +:+ u = s +:+ (t +:+ u))%string.
Proof.
  induction s as [|c s IH]; [done|].
  change (String c ((s +:+ t) +:+ u) = String c (s +:+ (t +:+ u))).
  by rewrite IH.
Qed.

Lemma string_length_app s t :
  String.length (s +:+ t) = (String.length s + String.length t)%nat.
Proof.
  induction s as [|c s IH]; [done|].
  change (S (String.length (s +:+ t)) = S (String.length s + String.length t)).
  by rewrite IH.
Qed.

Lemma concat_absorbs s t view :
  String.concat " " ((s +:+ (" " +:+ t))%string :: view)
  = (s +:+ (" " +:+ String.concat " " (t :: view)))%string.
Proof.
  destruct view as [|u view]; [done|].
  cbn [String.concat]. by rewrite !string_app_assoc.
Qed.

Lemma join_is_concat view : Counter.join view = String.concat " " view.
Proof.
  destruct view as [|v0 rest]; [done|]. unfold Counter.join.
  revert v0. induction rest as [|v1 rest IH]; intros v0; [done|].
  cbn [fold_left]. rewrite IH, concat_absorbs. by destruct rest.
Qed.

Lemma substring_length_le (n : nat) s : (String.length (String.substring 0 n s) <= n)%nat.
Proof.
  revert s. induction n as [|n IH]; intros s; destruct s as [|c s]; simpl; try lia.
  specialize (IH s). lia.
Qed.

Lemma concat_length_le (k : nat) view :
  Forall (fun v => (String.length v <= k)%nat) view ->
  (String.length (String.concat " " view) <= (k + 1) * length view)%nat.
Proof.
  induction view as [|v view IH]; intros H; [simpl; lia|].
  inversion H as [|? ? Hv Hrest]; subst. specialize (IH Hrest).
  destruct view as [|v' view]; [simpl; lia|].
  change (String.concat " " (v :: v' :: view))
    with (v +:+ (" " +:+ String.concat " " (v' :: view)))%string.
  rewrite !string_length_app.
  change (String.length " ") with 1%nat.
  cbn [length] in *. nia.
Qed.

Lemma c_str_stops_at_nul s t : c_str (s +:+ String Ascii.zero t) = c_str s.
Proof.
  induction s as [|c s IH]; [reflexivity|].
  change (c_str (String c (s +:+ String Ascii.zero t)) = c_str (String c s)).
  cbn [c_str]. destruct (Ascii.eqb c Ascii.zero); [done|]. by rewrite IH.
Qed.

Lemma wrap64_small (z : Z) : Z.abs z < 2 ^ 52 -> wrap64 z = z.
Proof.
  intros H. unfold wrap64.
  rewrite Z.mod_small; lia.
Qed.

Lemma snprintf_span_whole (item : string * (Z * Z)) :
  Counter.entry_fits item -> snprintf_span item = Counter.entry_text item.
Proof.
  destruct item as [name [first second]]. intros (Hc & Hr & Hl).
  unfold snprintf_span, Counter.entry_text in *. cbn [fst snd] in *.
  rewrite Hc, wrap64_small by done. by apply substring_all.
Qed.

End text_facts.

(** X8. When every span left by the forced ends fits its buffer (no NUL in the
    name, elapsed time below 2^52 microseconds, entry of at most 99 bytes),
    the report is the entries [[<name>: <ms>(ms)]] in table order, joined by
    single spaces. *)
Theorem report_of_fitting_spans (clock : nat -> Z) (tc : TimeCounter) :
  Forall Counter.entry_fits (_spans (snd (Counter.report clock tc))) ->
  fst (Counter.report clock tc)
  = String.concat " " (map Counter.entry_text (_spans (snd (Counter.report clock tc)))).
Proof.
  unfold Counter.report.
  destruct (Counter.end_all clock 0 (_trs tc)) as [trs es]. cbn [fst snd _spans].
  intros H. unfold Counter.render. rewrite join_is_concat. f_equal.
  apply map_ext_Forall. eapply Forall_impl; [exact H|].
  intros item Hfit. by apply snprintf_span_whole.
Qed.

Lemma report_of_fitting_spans_witness :
  let tc := Counter.calls
    [Counter.CallAddRecorder "b" 50 (0, 0); Counter.CallAddRecorder "a" 0 (0, 0);
     Counter.CallOnRecorder 1 (Recorder.OpEnd 100)] Counter.create in
  fst (Counter.report (fun _ => 200) tc)
  = String.concat " " ["[a: 0.100(ms)]"; "[b: 0.150(ms)]"]%string.
Proof.
  intros tc. rewrite (report_of_fitting_spans (fun _ => 200) tc); [reflexivity|].
  repeat constructor; vm_compute; congruence.
Defined.

(** X9. [%s] reads the name as a C string: a name is rendered up to its first
    NUL byte only, so two names that differ after a NUL are two spans with
    the same entry text. *)
Theorem entry_name_cut_at_nul (name rest : string) (span : Z * Z) :
  snprintf_span ((name +:+ String Ascii.zero rest)%string, span)
  = snprintf_span (name, span).
Proof.
  destruct span as [first second]. unfold snprintf_span.
  by rewrite c_str_stops_at_nul.
Qed.

(** X10. No entry is longer than the 99 bytes its buffer holds, so a report of
    [n] spans is at most [100 * n] bytes long. *)
Theorem report_length_bound (clock : nat -> Z) (tc : TimeCounter) :
  (String.length (fst (Counter.report clock tc))
   <= 100 * length (_spans (snd (Counter.report clock tc))))%nat.
Proof.
  unfold Counter.report.
  destruct (Counter.end_all clock 0 (_trs tc)) as [trs es]. cbn [fst snd _spans].
  unfold Counter.render. rewrite join_is_concat.
  etrans; [apply (concat_length_le 99)|by rewrite length_map].
  apply Forall_map, Forall_forall. intros [name [first second]] _.
  apply substring_length_le.
Qed.

(** ** [ThreadData] *)

Section data_more.
Implicit Types (d : ThreadData) (k key : string).

Lemma call_keeps_field (c : Data.Call) d k (v : string) :
  StdMap.find k (_log_fields d) = Some v ->
  is_Some (StdMap.find k (_log_fields (Data.call c d))) /\
  (Data.overwrites k c = false ->
   StdMap.find k (_log_fields (Data.call c d)) = Some v).
Proof.
  intros H. destruct c as [logid|key value ow|c|clock]; simpl.
  - split; [by exists v|done].
  - unfold Data.add_log_field, StdMap.count.
    destruct (decide (key = k)) as [->|Hne].
    + rewrite H. destruct ow; simpl.
      * rewrite find_assign_eq. split; [by eexists|].
        by rewrite String.eqb_refl.
      * split; [by exists v|done].
    + destruct (_ && _); simpl; rewrite ?find_assign_ne by done;
        (split; [by exists v|done]).
  - split; [by exists v|done].
  - unfold Data.report. destruct (Counter.report clock (_tc d)). simpl.
    split; [by exists v|done].
Qed.

Lemma data_call_keeps_sound (c : Data.Call) d :
  Forall Counter.entry_sound (_trs (_tc d)) ->
  Forall Counter.entry_sound (_trs (_tc (Data.call c d))).
Proof.
  intros H. destruct c as [logid|key value ow|c|clock]; simpl; try done.
  - unfold Data.add_log_field. by destruct (_ && _).
  - by apply call_keeps_sound.
  - unfold Data.report.
    pose proof (call_keeps_sound (Counter.CallReport clock) (_tc d) H) as Hs.
    simpl in Hs. by destruct (Counter.report clock (_tc d)).
Qed.

Lemma data_calls_keep_sound (cs : list Data.Call) d :
  Forall Counter.entry_sound (_trs (_tc d)) ->
  Forall Counter.entry_sound (_trs (_tc (Data.calls cs d))).
Proof.
  revert d. induction cs as [|c cs IH]; intros d H; simpl; [done|].
  apply IH. by apply data_call_keeps_sound.
Qed.

End data_more.

(** X11. [add_log_field] touches one field only: every other key reads as
    before, and the identifier and the aggregator are left alone. *)
Theorem add_log_field_frame (d : ThreadData) (key value other : string) (ow : bool) :
  other <> key ->
  let d' := Data.add_log_field key value ow d in
  StdMap.find other (_log_fields d') = StdMap.find other (_log_fields d) /\
  _logid d' = _logid d /\ _tc d' = _tc d.
Proof.
  intros Hne d'. subst d'. unfold Data.add_log_field.
  destruct (_ && _); simpl; [done|]. by rewrite find_assign_ne.
Qed.

Lemma add_log_field_frame_witness :
  let d := Data.add_log_field "a" "1" false (Data.create_with "req") in
  StdMap.find "a" (_log_fields (Data.add_log_field "b" "2" true d)) = Some "1"%string.
Proof.
  intros d.
  destruct (add_log_field_frame d "b" "2" "a" true) as [H _]; [discriminate|].
  rewrite H. reflexivity.
Defined.

(** X12. A log field is never removed, and it keeps its value through any
    calls among which none is an [add_log_field] on that key with
    overwrite. *)
Theorem log_field_persists (cs : list Data.Call) (d : ThreadData) (k v : string) :
  StdMap.find k (_log_fields d) = Some v ->
  is_Some (StdMap.find k (_log_fields (Data.calls cs d))) /\
  (forallb (fun c => negb (Data.overwrites k c)) cs = true ->
   StdMap.find k (_log_fields (Data.calls cs d)) = Some v).
Proof.
  revert d v. induction cs as [|c cs IH]; intros d v H; simpl.
  - split; [by exists v|done].
  - destruct (call_keeps_field c d k v H) as [[v1 H1] Hkeep].
    destruct (IH _ _ H1) as [IH1 _]. split; [exact IH1|].
    intros Hall. apply andb_prop in Hall as [Hc Hcs].
    apply negb_true_iff in Hc. specialize (Hkeep Hc).
    by apply (IH _ _ Hkeep).
Qed.

Lemma log_field_persists_witness :
  let d := Data.add_log_field "k" "v1" false (Data.create_with "req") in
  let cs := [Data.CallAddLogField "k" "v2" false;
             Data.CallAddLogField "other" "x" true;
             Data.CallSetLogId "req2";
             Data.CallReport (fun _ => 0)] in
  StdMap.find "k" (_log_fields (Data.calls cs d)) = Some "v1"%string.
Proof.
  intros d cs.
  destruct (log_field_persists cs d "k" "v1") as [_ H]; [reflexivity|].
  apply H. reflexivity.
Defined.

(** X13. [ThreadData::report] changes neither the identifier nor the fields,
    and a second report right after the first returns the same string and
    the same object. *)
Theorem data_report_twice (id : string) (cs : list Data.Call) (clock clock' : nat -> Z) :
  let d := Data.calls cs (Data.create_with id) in
  let d1 := snd (Data.report clock d) in
  _logid d1 = _logid d /\ _log_fields d1 = _log_fields d /\
  Data.report clock' d1 = (fst (Data.report clock d), d1).
Proof.
  intros d d1.
  assert (Forall Counter.entry_sound (_trs (_tc d))) as Hs.
  { apply data_calls_keep_sound. constructor. }
  destruct (Counter.report clock (_tc d)) as [out tc1] eqn:E.
  assert (Data.report clock d =
          (("[logid: " +:+ _logid d +:+ "]"
            +:+ Data.concat_strings (map Data.render_field (_log_fields d))
            +:+ " " +:+ out)%string,
           {| _logid := _logid d; _tc := tc1; _log_fields := _log_fields d |})) as Hr.
  { unfold Data.report. by rewrite E. }
  subst d1. rewrite Hr. cbn [fst snd _logid _log_fields].
  split; [done|]. split; [done|].
  pose proof (report_makes_done clock (_tc d) Hs) as Hd.
  rewrite E in Hd. cbn [snd] in Hd.
  assert (out = Counter.render (_spans tc1)) as ->.
  { unfold Counter.report in E.
    destruct (Counter.end_all clock 0 (_trs (_tc d))). by inversion E. }
  unfold Data.report. cbn [_tc _logid _log_fields].
  by rewrite (report_on_done clock' tc1 Hd).
Qed.

(** ** [HierarchicalMap] *)

Section hmap_more.
Implicit Types (hm : HierarchicalMap) (c : gmap string (gset string))
  (key k a b x p : string) (data : DataPtr) (st : RemoveState).

Lemma remove_loop_done (fuel : nat) st :
  keys_to_remove st = [] -> HMap.remove_loop fuel st = st.
Proof. intros H. destruct fuel; simpl; by rewrite H. Qed.

(** Removing a key that has no child set, or an empty one. *)
Lemma remove_final_leaf k hm :
  (forall cs, children_ hm !! k = Some cs -> cs = ∅) ->
  HMap.remove_final k hm =
  {| keys_to_remove := []; removed_keys := [k];
     rs_store := {| map_ := delete k (map_ hm); children_ := delete k (children_ hm) |};
     erasures := HMap.erased_children_of (children_ hm) k
                 ++ HMap.erased_entry_of (map_ hm) k |}.
Proof.
  intros Hleaf. unfold HMap.remove_final. rewrite pending_pop.
  cbn [HMap.remove_loop HMap.remove_init keys_to_remove].
  unfold HMap.remove_step, HMap.remove_init.
  cbn [rs_store removed_keys erasures].
  destruct (children_ hm !! k) as [cs|] eqn:E.
  - rewrite (Hleaf cs eq_refl), elements_empty. cbn [app].
    by rewrite remove_loop_done.
  - rewrite remove_loop_done by done. cbn [app].
    by rewrite (delete_id (children_ hm) k).
Qed.

Lemma child_of_AddData key data baseKey hm a b :
  HMap.child_of (children_ (fst (HMap.AddData key data baseKey hm))) a b <->
  HMap.child_of (children_ hm) a b \/
  (a = baseKey /\ b = key /\ baseKey <> ""%string /\ is_Some (map_ hm !! baseKey)).
Proof.
  destruct (decide (baseKey = ""%string)) as [He|Hne];
    [|destruct (map_ hm !! baseKey) as [bd|] eqn:Hb].
  - rewrite AddData_top_level by auto. simpl. rewrite child_of_emplace.
    split; [by left|]. by intros [?|(_ & _ & ? & _)].
  - rewrite (AddData_derived _ _ _ bd) by done. simpl. rewrite child_of_emplace.
    unfold HMap.child_of. split.
    + intros (cs & Hl & Hin). rewrite lookup_insert in Hl. case_decide; subst.
      * inversion Hl; subst. apply elem_of_union in Hin as [Hin|Hin].
        -- left. destruct (children_ hm !! a) as [cs'|] eqn:E; simpl in Hin.
           ++ by exists cs'.
           ++ by apply not_elem_of_empty in Hin.
        -- apply elem_of_singleton in Hin. subst. right. eauto.
      * left. by exists cs.
    + intros [(cs & Hl & Hin)|(-> & -> & _ & _)].
      * destruct (decide (baseKey = a)) as [->|Hna].
        -- eexists. rewrite lookup_insert_eq. split; [done|].
           rewrite Hl. simpl. set_solver.
        -- exists cs. by rewrite lookup_insert_ne.
      * eexists. rewrite lookup_insert_eq. split; [done|]. set_solver.
  - rewrite AddData_top_level by auto. simpl. rewrite child_of_emplace.
    split; [by left|]. intros [?|(_ & _ & _ & [? ?])]; [done|congruence].
Qed.

End hmap_more.

(** X14. In every map made by registrations and guard releases the two tables
    have the same keys: a key has a payload entry exactly when it has a
    child set. *)
Theorem tables_have_same_keys (cs : list HMap.Call) (k : string) :
  let hm := HMap.calls cs HMap.empty in
  is_Some (map_ hm !! k) <-> is_Some (children_ hm !! k).
Proof. apply (consistent_calls cs HMap.empty consistent_empty). Qed.

(** X15. What [AddData] changes: the payload of [key] and of no other key,
    and in the child relation exactly one pair is added, (baseKey, key),
    when [baseKey] is non-empty and in the map; no pair is ever taken
    away. *)
Theorem AddData_changes (hm : HierarchicalMap) (key baseKey : string) (data : DataPtr) :
  let hm' := fst (HMap.AddData key data baseKey hm) in
  (forall other, other <> key -> map_ hm' !! other = map_ hm !! other) /\
  (forall a b, HMap.child_of (children_ hm') a b <->
     HMap.child_of (children_ hm) a b \/
     (a = baseKey /\ b = key /\ baseKey <> ""%string /\ is_Some (map_ hm !! baseKey))).
Proof.
  intros hm'. split; [|intros a b; apply child_of_AddData].
  intros other Hne. subst hm'.
  destruct (decide (baseKey = ""%string)) as [He|Hn];
    [|destruct (map_ hm !! baseKey) as [bd|] eqn:Hb].
  - rewrite AddData_top_level by auto. simpl. by rewrite lookup_insert_ne.
  - rewrite (AddData_derived _ _ _ bd) by done. simpl. by rewrite lookup_insert_ne.
  - rewrite AddData_top_level by auto. simpl. by rewrite lookup_insert_ne.
Qed.

Lemma AddData_changes_witness :
  let hm := fst (HMap.AddData "parent" (Some 0%nat) "" HMap.empty) in
  let hm' := fst (HMap.AddData "child" (Some 1%nat) "parent" hm) in
  map_ hm' !! "parent"%string = map_ hm !! "parent"%string /\
  HMap.child_of (children_ hm') "parent" "child".
Proof.
  intros hm hm'.
  destruct (AddData_changes hm "child" "parent" (Some 1%nat)) as [Hmap Hrel].
  split; [by apply Hmap|]. apply Hrel. right.
  split; [done|]. split; [done|]. split; [done|]. by exists (Some 0%nat).
Defined.

(** X16. Deriving [child] from a registered [parent] and then releasing the
    last guard of [parent] leaves neither key: [FindData] is null and
    [GetKeyGuard] gives the null guard for both. *)
Theorem derive_then_release_parent (hm : HierarchicalMap) (child parent : string)
  (data : DataPtr) :
  parent <> ""%string ->
  is_Some (map_ hm !! parent) ->
  let hm1 := fst (HMap.AddData child data parent hm) in
  let hm2 := fst (HMap.RemoveKeyRecursive parent hm1) in
  HMap.FindData parent hm2 = None /\ HMap.FindData child hm2 = None /\
  HMap.GetKeyGuard parent hm2 = None /\ HMap.GetKeyGuard child hm2 = None.
Proof.
  intros Hne Hp hm1 hm2.
  destruct (remove_final_spec parent hm1) as (_ & Hgone & _).
  assert (HMap.reachable (children_ hm1) parent child) as Hr.
  { apply rtc_once. apply child_of_AddData. right. done. }
  destruct (Hgone parent (rtc_refl _ _)) as [Hmp _].
  destruct (Hgone child Hr) as [Hmc _].
  unfold HMap.FindData, HMap.GetKeyGuard. subst hm2.
  unfold HMap.RemoveKeyRecursive. cbn [fst]. by rewrite Hmp, Hmc.
Qed.

Lemma derive_then_release_parent_witness :
  let hm := fst (HMap.AddData "parent" (Some 0%nat) "" HMap.empty) in
  let hm1 := fst (HMap.AddData "child" (Some 1%nat) "parent" hm) in
  HMap.FindData "child" hm1 = Some 0%nat /\
  HMap.FindData "child" (fst (HMap.RemoveKeyRecursive "parent" hm1)) = None.
Proof.
  intros hm hm1. split; [reflexivity|].
  destruct (derive_then_release_parent hm "child" "parent" (Some 1%nat))
    as (_ & H & _).
  - discriminate.
  - by exists (Some 0%nat).
  - exact H.
Defined.

(** X17. Releasing the last guard of a key without children takes out that
    key alone and leaves every child set as it is: the set of the key's base
    still names it. *)
Theorem release_leaf (hm : HierarchicalMap) (k : string) :
  (forall cs, children_ hm !! k = Some cs -> cs = ∅) ->
  HMap.RemoveKeyRecursive k hm =
    ({| map_ := delete k (map_ hm); children_ := delete k (children_ hm) |},
     [("[begin recursive remove key] parent key is " +:+ k)%string]) /\
  forall p x, p <> k ->
    (HMap.child_of (children_ (fst (HMap.RemoveKeyRecursive k hm))) p x
     <-> HMap.child_of (children_ hm) p x).
Proof.
  intros Hleaf. unfold HMap.RemoveKeyRecursive.
  rewrite (remove_final_leaf k hm Hleaf). cbn [rs_store removed_keys fst children_].
  split; [done|]. intros p x Hne. unfold HMap.child_of.
  by rewrite lookup_delete_ne.
Qed.

Lemma release_leaf_witness :
  let hm := HMap.calls
    [HMap.CallAddData "parent" (Some 0%nat) "";
     HMap.CallAddData "child" (Some 1%nat) "parent"] HMap.empty in
  let hm' := fst (HMap.RemoveKeyRecursive "child" hm) in
  HMap.FindData "parent" hm' = Some 0%nat /\
  HMap.FindData "child" hm' = None /\
  HMap.child_of (children_ hm') "parent" "child".
Proof.
  intros hm hm'. split; [reflexivity|]. split; [reflexivity|].
  destruct (release_leaf hm "child") as [_ H].
  - intros cs Hcs. vm_compute in Hcs. by inversion Hcs.
  - apply H; [discriminate|].
    exists {["child"%string]}. split; [reflexivity|]. by apply elem_of_singleton.
Defined.

(** X18. Releasing twice is harmless: once the guard of [k] has run its
    removal, a second removal of [k] changes nothing and names [k] alone. *)
Theorem release_twice (hm : HierarchicalMap) (k : string) :
  let hm' := fst (HMap.RemoveKeyRecursive k hm) in
  HMap.RemoveKeyRecursive k hm' =
    (hm', [("[begin recursive remove key] parent key is " +:+ k)%string]).
Proof.
  intros hm'.
  destruct (remove_final_spec k hm) as (_ & Hgone & _).
  destruct (Hgone k (rtc_refl _ _)) as [Hm Hc].
  change (rs_store (HMap.remove_final k hm)) with hm' in Hm, Hc.
  unfold HMap.RemoveKeyRecursive. rewrite remove_final_leaf by (intros cs; congruence).
  cbn [rs_store removed_keys].
  rewrite (delete_id (map_ hm') k), (delete_id (children_ hm') k) by done.
  by destruct hm'.
Qed.

Section notice_facts.
Implicit Types (c : gmap string (gset string)) (m : gmap string DataPtr)
  (q rest removed : list string) (a x k : string).

(** The loop only appends to [removed_keys], and what it appends are the
    members of the child sets of the keys it reaches. *)
Lemma remove_loop_log (fuel : nat) q removed m c (tr0 : list Erasure) :
  (HMap.pending q c <= fuel)%nat ->
  exists pushed,
    removed_keys (HMap.remove_loop fuel
      {| keys_to_remove := q; removed_keys := removed;
         rs_store := {| map_ := m; children_ := c |}; erasures := tr0 |})
    = removed ++ pushed /\
    forall x, x ∈ pushed <->
      exists a, HMap.reachable_from c q a /\ HMap.child_of c a x.
Proof.
  revert q removed m c tr0.
  induction fuel as [|fuel IH]; intros q removed m c tr0 Hfuel;
    destruct q as [|a rest]; try (rewrite pending_pop in Hfuel; lia).
  1,2: (exists []; rewrite app_nil_r; split; [reflexivity|];
        intros x; split; [by intros ?%elem_of_nil|];
        intros (a & (y & Hy & _) & _); by apply elem_of_nil in Hy).
  rewrite pending_pop in Hfuel. cbn [HMap.remove_loop keys_to_remove].
  unfold HMap.remove_step. cbn [rs_store removed_keys erasures children_ map_].
  destruct (c !! a) as [cs|] eqn:Ha.
  - destruct (IH (rest ++ elements cs) (removed ++ elements cs) (delete a m)
                (delete a c)
                (tr0 ++ HMap.erased_children_of c a ++ HMap.erased_entry_of m a))
      as (pushed & Hlog & Hpushed).
    { rewrite (pending_expand _ _ _ cs) by done. lia. }
    exists (elements cs ++ pushed). split; [by rewrite Hlog, app_assoc|].
    intros x. rewrite elem_of_app, elem_of_elements, Hpushed. split.
    + intros [Hx|(b & Hb & (cs' & Hl & Hin))].
      * exists a. split; [|by exists cs].
        exists a. split; [by left|apply rtc_refl].
      * apply lookup_delete_Some in Hl as [Hne Hl].
        exists b. split; [|by exists cs'].
        apply (reachable_from_step_some c a rest cs b Ha). by right.
    + intros (b & Hb & (cs' & Hl & Hin)).
      destruct (decide (b = a)) as [->|Hne].
      * left. congruence.
      * right. exists b. split.
        -- apply (reachable_from_step_some c a rest cs b Ha) in Hb as [?|?]; done.
        -- exists cs'. by rewrite lookup_delete_ne.
  - destruct (IH rest removed (delete a m) c
                (tr0 ++ HMap.erased_children_of c a ++ HMap.erased_entry_of m a))
      as (pushed & Hlog & Hpushed).
    { lia. }
    exists pushed. split; [exact Hlog|].
    intros x. rewrite Hpushed. split.
    + intros (b & Hb & Hc). exists b. split; [|done].
      apply (reachable_from_step_none c a rest b Ha). by right.
    + intros (b & Hb & (cs' & Hl & Hin)).
      destruct (decide (b = a)) as [->|Hne]; [congruence|].
      exists b. split; [|by exists cs'].
      apply (reachable_from_step_none c a rest b Ha) in Hb as [?|?]; done.
Qed.

Lemma reachable_last_step c k x :
  HMap.reachable c k x <->
  x = k \/ exists a, HMap.reachable c k a /\ HMap.child_of c a x.
Proof.
  unfold HMap.reachable. split.
  - intros H. apply rtc_inv_r in H as [->|(a & Ha & Hs)]; [by left|].
    right. by exists a.
  - intros [->|(a & Ha & Hs)]; [apply rtc_refl|]. by eapply rtc_r.
Qed.

End notice_facts.

(** X19. The notice of a removal names the released key first, and the keys
    it names are exactly the keys reachable from it over the child sets. *)
Theorem removal_notice_names_reached (hm : HierarchicalMap) (k : string) :
  exists pushed,
    snd (HMap.RemoveKeyRecursive k hm) = [HMap.remove_notice (k :: pushed)] /\
    forall x, x ∈ k :: pushed <-> HMap.reachable (children_ hm) k x.
Proof.
  unfold HMap.RemoveKeyRecursive. cbn [snd].
  unfold HMap.remove_final, HMap.remove_init. destruct hm as [m c].
  cbn [children_].
  destruct (remove_loop_log (HMap.pending [k] c) [k] [k] m c [] (le_n _))
    as (pushed & Hlog & Hpushed).
  exists pushed. rewrite Hlog. split; [done|].
  intros x. rewrite elem_of_cons, Hpushed, reachable_last_step.
  by setoid_rewrite reachable_from_singleton.
Qed.

(** ** [ThreadDataManager] *)

Section manager_more.
Implicit Types (m : ThreadDataManager) (logid k : string).

Lemma dummy_key_longer logid (n : N) :
  ("dummy_" +:+ logid +:+ "_" +:+ pretty n)%string <> logid.
Proof.
  intros H. apply (f_equal String.length) in H.
  rewrite !string_length_app in H. simpl in H. lia.
Qed.

Lemma FindData_AddData_key key data baseKey hm :
  HMap.FindData key (fst (HMap.AddData key data baseKey hm))
  = if negb (String.eqb baseKey "")
    then match map_ hm !! baseKey with Some d => d | None => data end
    else data.
Proof.
  unfold HMap.AddData, HMap.FindData.
  destruct (negb (baseKey =? "")%string); [destruct (map_ hm !! baseKey)|];
    simpl; by rewrite lookup_insert_eq.
Qed.

Lemma map_AddData_other key data baseKey hm other :
  other <> key ->
  map_ (fst (HMap.AddData key data baseKey hm)) !! other = map_ hm !! other.
Proof.
  intros Hne. unfold HMap.AddData.
  destruct (negb (baseKey =? "")%string); [destruct (map_ hm !! baseKey)|];
    simpl; by rewrite lookup_insert_ne.
Qed.

(** [Init] for an identifier that [FindData] does not resolve. *)
Lemma Init_absent logid m :
  HMap.FindData logid (data_map_ m) = None ->
  Manager.Init logid m =
  (Some (length (heap m)),
   {| _logid_ptr := Some logid;
      data_map_ := fst (HMap.AddData logid (Some (length (heap m))) "" (data_map_ m));
      dummy_counter_ := dummy_counter_ m;
      heap := heap m ++ [Data.create_with logid] |},
   snd (Manager.clear_if_exist m) ++ [("Adding new ThreadData: " +:+ logid)%string]).
Proof.
  intros Hf. destruct m as [ptr dm cnt hp]. cbn [data_map_] in Hf.
  assert (HMap.FindData logid (fst (HMap.AddData logid (Some (length hp)) "" dm))
          = Some (length hp)) as Hfind by (by rewrite FindData_AddData_key).
  unfold Manager.Init, Manager.clear_if_exist, Manager.set_logid, Manager.allocate,
    Manager.with_map, Manager.GetCurrentThreadData.
  destruct ptr as [old|]; cbn [_logid_ptr data_map_ heap dummy_counter_ fst snd];
    rewrite Hf; cbn [_logid_ptr data_map_ heap dummy_counter_ fst snd];
    rewrite (surjective_pairing (HMap.AddData logid (Some (length hp)) "" dm));
    cbn [_logid_ptr data_map_ heap dummy_counter_ fst snd];
    rewrite Hfind; reflexivity.
Qed.

Lemma FindData_Some key hm (l : nat) :
  HMap.FindData key hm = Some l <-> map_ hm !! key = @Some DataPtr (Some l).
Proof.
  unfold HMap.FindData. destruct (map_ hm !! key) as [[l'|]|];
    split; intros H; inversion H; done.
Qed.

(** [Init] for an identifier that [FindData] resolves. *)
Lemma Init_present logid m (l : nat) :
  HMap.FindData logid (data_map_ m) = Some l ->
  let dummy_key := ("dummy_" +:+ logid +:+ "_" +:+ pretty (dummy_counter_ m))%string in
  Manager.Init logid m =
  (Some l,
   {| _logid_ptr := Some dummy_key;
      data_map_ := fst (HMap.AddData dummy_key (Some l) logid (data_map_ m));
      dummy_counter_ := ((dummy_counter_ m + 1) mod 2 ^ 64)%N;
      heap := heap m |},
   snd (Manager.clear_if_exist m)
   ++ [("Adding dummy key: " +:+ dummy_key +:+ ", for logid: " +:+ logid)%string;
       ("find old logid: " +:+ logid +:+ ", need to clear it")%string]).
Proof.
  intros Hf dummy_key. destruct m as [ptr dm cnt hp].
  cbn [data_map_ dummy_counter_] in *.
  assert (HMap.FindData dummy_key (fst (HMap.AddData dummy_key (Some l) logid dm))
          = Some l) as Hfind.
  { rewrite FindData_AddData_key. apply FindData_Some in Hf. rewrite Hf.
    by destruct (negb _). }
  assert (snd (HMap.AddData dummy_key (Some l) logid dm) = []) as Herr.
  { unfold HMap.AddData. apply FindData_Some in Hf. rewrite Hf.
    by destruct (negb _). }
  unfold Manager.Init, Manager.clear_if_exist, Manager.set_logid,
    Manager.GenerateDummyKey, Manager.with_map, Manager.GetCurrentThreadData.
  destruct ptr as [old|]; cbn [_logid_ptr data_map_ heap dummy_counter_ fst snd];
    rewrite Hf; cbn [_logid_ptr data_map_ heap dummy_counter_ fst snd];
    fold dummy_key;
    rewrite (surjective_pairing (HMap.AddData dummy_key (Some l) logid dm));
    cbn [_logid_ptr data_map_ heap dummy_counter_ fst snd];
    rewrite Hfind, Herr; rewrite ?app_nil_r; reflexivity.
Qed.

Lemma AddData_keeps_keys key data baseKey hm k :
  is_Some (map_ hm !! k) -> is_Some (map_ (fst (HMap.AddData key data baseKey hm)) !! k).
Proof.
  intros H. destruct (decide (k = key)) as [->|Hne].
  - unfold HMap.AddData.
    destruct (negb (baseKey =? "")%string); [destruct (map_ hm !! baseKey)|];
      simpl; rewrite lookup_insert_eq; by eexists.
  - by rewrite map_AddData_other.
Qed.

Lemma Init_cases logid m :
  (HMap.FindData logid (data_map_ m) = None /\
   snd (fst (Manager.Init logid m)) =
     {| _logid_ptr := Some logid;
        data_map_ := fst (HMap.AddData logid (Some (length (heap m))) "" (data_map_ m));
        dummy_counter_ := dummy_counter_ m;
        heap := heap m ++ [Data.create_with logid] |}) \/
  (exists l : nat, HMap.FindData logid (data_map_ m) = Some l /\
   snd (fst (Manager.Init logid m)) =
     {| _logid_ptr := Some ("dummy_" +:+ logid +:+ "_" +:+ pretty (dummy_counter_ m))%string;
        data_map_ := fst (HMap.AddData
                            ("dummy_" +:+ logid +:+ "_" +:+ pretty (dummy_counter_ m))%string
                            (Some l) logid (data_map_ m));
        dummy_counter_ := ((dummy_counter_ m + 1) mod 2 ^ 64)%N;
        heap := heap m |}).
Proof.
  destruct (HMap.FindData logid (data_map_ m)) as [l|] eqn:Hf.
  - right. exists l. split; [done|]. by rewrite (Init_present logid m l Hf).
  - left. split; [done|]. by rewrite (Init_absent logid m Hf).
Qed.

Lemma GetCurrentThreadData_cases m :
  (exists logid (l : nat), _logid_ptr m = Some logid /\
     HMap.FindData logid (data_map_ m) = Some l /\
     Manager.GetCurrentThreadData m = (Some l, m, [])) \/
  ((_logid_ptr m = None \/
    exists logid, _logid_ptr m = Some logid /\
                  HMap.FindData logid (data_map_ m) = None) /\
   exists err, err <> [] /\
     Manager.GetCurrentThreadData m =
       (Some (length (heap m)),
        {| _logid_ptr := _logid_ptr m; data_map_ := data_map_ m;
           dummy_counter_ := dummy_counter_ m; heap := heap m ++ [Data.create] |},
        err)).
Proof.
  unfold Manager.GetCurrentThreadData, Manager.allocate.
  destruct (_logid_ptr m) as [logid|] eqn:Hp.
  - destruct (HMap.FindData logid (data_map_ m)) as [l|] eqn:Hf.
    + left. by exists logid, l.
    + right. split; [right; by exists logid|]. eexists. split; [|reflexivity]. done.
  - right. split; [by left|]. eexists. split; [|reflexivity]. done.
Qed.

Lemma call_keeps_keys (c : Manager.Call) m m' k :
  Manager.call c m = Some m' ->
  is_Some (map_ (data_map_ m) !! k) -> is_Some (map_ (data_map_ m') !! k).
Proof.
  destruct c as [logid| |]; simpl.
  - intros [= <-] H.
    destruct (Init_cases logid m) as [[_ ->]|(l & _ & ->)]; cbn [data_map_];
      by apply AddData_keeps_keys.
  - intros [= <-] H.
    destruct (GetCurrentThreadData_cases m) as [(? & ? & _ & _ & ->)|(_ & ? & _ & ->)];
      done.
  - unfold Manager.GetKeyGuard, Manager.allocate.
    destruct (_logid_ptr m); simpl; [|done]. by intros [= <-].
Qed.

Lemma call_keeps_pointers_valid (c : Manager.Call) m m' :
  Manager.call c m = Some m' ->
  Manager.pointers_valid m -> Manager.pointers_valid m'.
Proof.
  unfold Manager.pointers_valid. destruct c as [logid| |]; simpl.
  - intros [= <-] Hv k d.
    destruct (Init_cases logid m) as [[_ ->]|(l0 & Hf & ->)];
      [simpl|cbn [data_map_ heap]].
    + rewrite length_app. simpl. destruct (decide (k = logid)) as [->|Hne].
      * rewrite lookup_insert_eq. intros [= <-]. eexists. split; [done|]. lia.
      * rewrite lookup_insert_ne by done. intros H.
        destruct (Hv _ _ H) as (l & -> & Hl). exists l. split; [done|]. lia.
    + match goal with |- context [HMap.AddData ?dk _ _ _] => set (dummy := dk) end.
      apply FindData_Some in Hf. destruct (Hv _ _ Hf) as (l & [= <-] & Hl0).
      destruct (decide (k = dummy)) as [->|Hne].
      * unfold HMap.AddData. rewrite Hf.
        destruct (negb _); simpl; rewrite lookup_insert_eq; intros [= <-];
          by exists l0.
      * rewrite map_AddData_other by done. apply Hv.
  - intros [= <-] Hv k d.
    destruct (GetCurrentThreadData_cases m) as [(? & ? & _ & _ & ->)|(_ & ? & _ & ->)];
      simpl; [apply Hv|].
    intros H. destruct (Hv _ _ H) as (l & -> & Hl). exists l. split; [done|].
    rewrite length_app. lia.
  - unfold Manager.GetKeyGuard, Manager.allocate.
    destruct (_logid_ptr m); simpl; [|done]. intros [= <-] Hv k d H.
    simpl in *. destruct (Hv _ _ H) as (l & -> & Hl). exists l. split; [done|].
    rewrite length_app. lia.
Qed.

Lemma calls_keep (P : ThreadDataManager -> Prop) :
  (forall c m m', Manager.call c m = Some m' -> P m -> P m') ->
  forall cs m m', Manager.calls cs m = Some m' -> P m -> P m'.
Proof.
  intros Hstep cs. induction cs as [|c cs IH]; intros m m'; simpl.
  - by intros [= <-].
  - destruct (Manager.call c m) as [m1|] eqn:E; [|done].
    intros Hcs Hm. eapply IH; [exact Hcs|]. by eapply Hstep.
Qed.

End manager_more.

(** X20. [Init] with an identifier the map does not resolve makes a new
    [ThreadData] carrying that identifier, registers it under the identifier
    as a key with no base, makes the identifier the thread's active one and
    returns the new object; no other key, no other object and not the dummy
    counter is touched. *)
Theorem Init_registers_new (m : ThreadDataManager) (logid : string) :
  HMap.FindData logid (data_map_ m) = None ->
  let p := fst (fst (Manager.Init logid m)) in
  let m' := snd (fst (Manager.Init logid m)) in
  p = Some (length (heap m)) /\
  heap m' = heap m ++ [Data.create_with logid] /\
  _logid_ptr m' = Some logid /\
  HMap.FindData logid (data_map_ m') = p /\
  dummy_counter_ m' = dummy_counter_ m /\
  (forall k, k <> logid ->
     map_ (data_map_ m') !! k = map_ (data_map_ m) !! k) /\
  (forall a b, HMap.child_of (children_ (data_map_ m')) a b
               <-> HMap.child_of (children_ (data_map_ m)) a b).
Proof.
  intros Hf p m'. subst p m'. rewrite (Init_absent logid m Hf).
  cbn [fst snd heap _logid_ptr data_map_ dummy_counter_].
  split; [done|]. split; [done|]. split; [done|].
  split; [by rewrite FindData_AddData_key|]. split; [done|]. split.
  - intros k Hne. by apply map_AddData_other.
  - intros a b. rewrite child_of_AddData. split; [|by left].
    by intros [?|(_ & _ & ? & _)].
Qed.

Lemma Init_registers_new_witness :
  fst (fst (Manager.Init "req" Manager.create)) = Some 0%nat /\
  heap (snd (fst (Manager.Init "req" Manager.create))) = [Data.create_with "req"].
Proof.
  destruct (Init_registers_new Manager.create "req") as (Hp & Hh & _).
  - reflexivity.
  - split; [exact Hp|exact Hh].
Defined.

(** X21. [Init] with an identifier the map resolves makes no object: it
    registers the key [dummy_<id>_<counter>] with the same payload pointer,
    as a child of the identifier when that is non-empty, makes the dummy key
    the thread's active identifier, returns the existing object and moves
    the counter on by one (modulo 2^64). *)
Theorem Init_derives_dummy_key (m : ThreadDataManager) (logid : string) (l : nat) :
  HMap.FindData logid (data_map_ m) = Some l ->
  let dummy_key := ("dummy_" +:+ logid +:+ "_" +:+ pretty (dummy_counter_ m))%string in
  let m' := snd (fst (Manager.Init logid m)) in
  fst (fst (Manager.Init logid m)) = Some l /\
  heap m' = heap m /\
  _logid_ptr m' = Some dummy_key /\
  HMap.FindData dummy_key (data_map_ m') = Some l /\
  HMap.FindData logid (data_map_ m') = Some l /\
  (logid <> ""%string -> HMap.child_of (children_ (data_map_ m')) logid dummy_key) /\
  dummy_counter_ m' = ((dummy_counter_ m + 1) mod 2 ^ 64)%N.
Proof.
  intros Hf dummy_key m'. subst m'. rewrite (Init_present logid m l Hf).
  fold dummy_key. cbn [fst snd heap _logid_ptr data_map_ dummy_counter_].
  pose proof Hf as Hm. apply FindData_Some in Hm.
  split; [done|]. split; [done|]. split; [done|]. split; [|split; [|split; [|done]]].
  - rewrite FindData_AddData_key, Hm. by destruct (negb _).
  - apply FindData_Some. rewrite map_AddData_other; [done|].
    intros H. by apply (dummy_key_longer logid (dummy_counter_ m)).
  - intros Hne. apply child_of_AddData. right.
    split; [done|]. split; [done|]. split; [done|]. rewrite Hm. by eexists.
Qed.

Lemma Init_derives_dummy_key_witness :
  let m := snd (fst (Manager.Init "req" Manager.create)) in
  _logid_ptr (snd (fst (Manager.Init "req" m))) = Some "dummy_req_0"%string /\
  HMap.FindData "dummy_req_0" (data_map_ (snd (fst (Manager.Init "req" m)))) = Some 0%nat.
Proof.
  intros m.
  destruct (Init_derives_dummy_key m "req" 0%nat) as (_ & _ & Hp & Hf & _).
  - reflexivity.
  - split; [exact Hp|exact Hf].
Defined.

(** X22. Two successive [Init] calls with an identifier the map resolves give
    two different active identifiers, and afterwards both of them and the
    identifier itself resolve to the one payload. *)
Theorem Init_twice_distinct_keys (m : ThreadDataManager) (logid : string) (l : nat) :
  HMap.FindData logid (data_map_ m) = Some l ->
  let m1 := snd (fst (Manager.Init logid m)) in
  let m2 := snd (fst (Manager.Init logid m1)) in
  exists k1 k2,
    _logid_ptr m1 = Some k1 /\ _logid_ptr m2 = Some k2 /\ k1 <> k2 /\
    HMap.FindData k1 (data_map_ m2) = Some l /\
    HMap.FindData k2 (data_map_ m2) = Some l /\
    HMap.FindData logid (data_map_ m2) = Some l.
Proof.
  intros Hf m1 m2.
  set (c1 := dummy_counter_ m).
  set (c2 := ((c1 + 1) mod 2 ^ 64)%N).
  set (k1 := ("dummy_" +:+ logid +:+ "_" +:+ pretty c1)%string).
  set (k2 := ("dummy_" +:+ logid +:+ "_" +:+ pretty c2)%string).
  assert (m1 = {| _logid_ptr := Some k1;
                  data_map_ := fst (HMap.AddData k1 (Some l) logid (data_map_ m));
                  dummy_counter_ := c2; heap := heap m |}) as Hm1.
  { subst m1. by rewrite (Init_present logid m l Hf). }
  pose proof Hf as Hm. apply FindData_Some in Hm.
  assert (k1 <> logid) as Hk1 by apply dummy_key_longer.
  assert (k2 <> logid) as Hk2 by apply dummy_key_longer.
  assert (HMap.FindData k1 (data_map_ m1) = Some l) as Hf1.
  { rewrite Hm1. cbn [data_map_]. rewrite FindData_AddData_key, Hm.
    by destruct (negb _). }
  assert (HMap.FindData logid (data_map_ m1) = Some l) as Hfl.
  { rewrite Hm1. cbn [data_map_]. apply FindData_Some.
    rewrite map_AddData_other; [done|]. intros H. by apply Hk1. }
  assert (m2 = {| _logid_ptr := Some k2;
                  data_map_ := fst (HMap.AddData k2 (Some l) logid (data_map_ m1));
                  dummy_counter_ := ((c2 + 1) mod 2 ^ 64)%N; heap := heap m1 |}) as Hm2.
  { assert (dummy_counter_ m1 = c2) as Hc by (by rewrite Hm1).
    subst m2. rewrite (Init_present logid m1 l Hfl). cbn [fst snd].
    by rewrite Hc. }
  assert (k1 <> k2) as Hne.
  { intros Heq. subst k1 k2.
    do 3 apply String.app_inj in Heq. apply pretty_N_inj in Heq.
    subst c2. revert Heq. generalize (2 ^ 64)%N (eq_refl : (1 <? 2 ^ 64)%N = true).
    intros M HM Heq. apply N.ltb_lt in HM.
    assert ((c1 + 1) mod M < M)%N as Hb by (apply N.mod_upper_bound; lia).
    assert (c1 + 1 < M \/ c1 + 1 = M)%N as [Hs|Hl] by lia.
    - rewrite N.mod_small in Heq by done. lia.
    - rewrite Hl, N.Div0.mod_same in Heq. lia. }
  exists k1, k2. rewrite Hm1 at 1. rewrite Hm2. cbn [_logid_ptr data_map_].
  split; [done|]. split; [done|]. split; [done|].
  pose proof Hfl as Hml. apply FindData_Some in Hml.
  split; [|split].
  - apply FindData_Some. rewrite map_AddData_other by done. by apply FindData_Some.
  - rewrite FindData_AddData_key, Hml. by destruct (negb _).
  - apply FindData_Some. rewrite map_AddData_other; [done|]. intros H. by apply Hk2.
Qed.

Lemma Init_twice_distinct_keys_witness :
  let m := snd (fst (Manager.Init "req" Manager.create)) in
  exists k1 k2,
    _logid_ptr (snd (fst (Manager.Init "req" m))) = Some k1 /\
    _logid_ptr (snd (fst (Manager.Init "req" (snd (fst (Manager.Init "req" m))))))
      = Some k2 /\ k1 <> k2.
Proof.
  intros m.
  destruct (Init_twice_distinct_keys m "req" 0%nat eq_refl)
    as (k1 & k2 & H1 & H2 & Hne & _).
  by exists k1, k2.
Defined.


(** X24. [ThreadDataManager::GetKeyGuard] never hands out a guard of the map:
    with an active identifier it returns a new detached object and leaves
    the map alone, and without one it is undefined.  So no sequence of
    defined calls on the manager ever removes a key from the map. *)
Theorem manager_never_removes (cs : list Manager.Call) (m m' : ThreadDataManager)
  (k : string) :
  Manager.calls cs m = Some m' ->
  is_Some (map_ (data_map_ m) !! k) ->
  is_Some (map_ (data_map_ m') !! k) /\
  match Manager.GetKeyGuard m' with
  | Returned (p, m'', _) =>
      p = Owner (length (heap m')) /\ data_map_ m'' = data_map_ m' /\
      heap m'' = heap m' ++ [Data.create] /\ is_Some (_logid_ptr m')
  | Undefined _ => _logid_ptr m' = None
  end.
Proof.
  intros Hcs Hk. split.
  - exact (calls_keep (fun m => is_Some (map_ (data_map_ m) !! k))
             (fun c m0 m1 => call_keeps_keys c m0 m1 k) cs m m' Hcs Hk).
  - unfold Manager.GetKeyGuard, Manager.allocate.
    destruct (_logid_ptr m'); simpl; [|done]. repeat split; by eexists.
Qed.

Lemma manager_never_removes_witness :
  exists m', Manager.calls
    [Manager.CallInit "req"; Manager.CallGetKeyGuard; Manager.CallInit "other"]
    Manager.create = Some m' /\
  is_Some (map_ (data_map_ m') !! "req"%string).
Proof.
  eexists. split; [reflexivity|].
  apply (manager_never_removes [Manager.CallGetKeyGuard; Manager.CallInit "other"]
           (snd (fst (Manager.Init "req" Manager.create))) _ "req").
  - reflexivity.
  - by exists (Some 0%nat).
Defined.

(** X25. In a manager reached from the initial one by defined calls no key
    of the map holds a null pointer: every key resolves, through [FindData],
    to the address of an object, and so does [GetCurrentThreadData]. *)
Theorem current_data_is_an_object (cs : list Manager.Call) (m : ThreadDataManager) :
  Manager.calls cs Manager.create = Some m ->
  (forall k, is_Some (map_ (data_map_ m) !! k) ->
     exists l : nat, HMap.FindData k (data_map_ m) = Some l /\ is_Some (heap m !! l)) /\
  exists l, fst (fst (Manager.GetCurrentThreadData m)) = Some l /\
            is_Some (heap (snd (fst (Manager.GetCurrentThreadData m))) !! l).
Proof.
  intros Hcs.
  assert (Manager.pointers_valid m) as Hv.
  { apply (calls_keep Manager.pointers_valid call_keeps_pointers_valid
             cs Manager.create m Hcs).
    intros k d H. simpl in H. by rewrite lookup_empty in H. }
  split.
  - intros k [d Hd]. destruct (Hv k d Hd) as (l & -> & Hl). exists l.
    split; [by apply FindData_Some|]. by apply lookup_lt_is_Some.
  - destruct (GetCurrentThreadData_cases m)
      as [(logid & l & Hp & Hf & ->)|(_ & err & _ & ->)]; cbn [fst snd heap].
    + exists l. split; [done|]. apply FindData_Some in Hf.
      destruct (Hv logid _ Hf) as (l' & [= <-] & Hl). by apply lookup_lt_is_Some.
    + exists (length (heap m)). split; [done|].
      apply lookup_lt_is_Some. rewrite length_app. simpl. lia.
Qed.

Lemma current_data_is_an_object_witness :
  exists l, fst (fst (Manager.GetCurrentThreadData
                        (snd (fst (Manager.Init "req" Manager.create))))) = Some l.
Proof.
  destruct (current_data_is_an_object [Manager.CallInit "req"]
              (snd (fst (Manager.Init "req" Manager.create))) eq_refl)
    as [_ (l & Hl & _)].
  by exists l.
Defined.
